(** * Live conversational audio session (src/components/LiveSession.tsx)

    A shallow embedding of the live-session component: the PCM codec
    ([createPcmBlob] and the decode block of [onmessage]), the playback
    scheduler (scheduling and interruption blocks of [onmessage]), the
    capture callback ([onaudioprocess]) and the session life cycle
    ([startSession], [stopSession], [onopen], [onclose], [onerror]).

    Numbers.  A JavaScript number is modelled by [number]: a finite value is
    an exact rational, next to NaN and the two infinities.  The codec only
    multiplies and divides by 32768 (a power of two) and truncates, which is
    exact on floats, so the rational model loses nothing there.  Times of the
    playback clock are rationals too; sums of times are exact here, where the
    double precision [+=] of the source rounds.

    Objects.  Audio contexts, session promises and script processors are
    kept in stores and named by their index, so that a ref, a closure and
    the SDK can hold the same object.  Source nodes are named by the order
    in which they are started.

    Events.  Each callback is a function on the state; the browser and the
    SDK decide when it runs.  An exception ends the callback that raised
    it. *)

From Stdlib Require Import ZArith QArith Qround Qabs Lia List String Ascii Bool.
From Stdlib Require DecimalString.
From Stdlib Require Import Sorted.
From stdpp Require Import base list.
Import ListNotations.

Open Scope Z_scope.

(** ** JavaScript values and exceptions *)

Inductive number : Type :=
| Fin (q : Q)
| NaN
| Infinity (negative : bool).

(** The exceptions the modelled statements can raise. *)
Inductive Exn : Type :=
| InvalidCharacterError   (* atob on a malformed payload *)
| RangeError              (* new Int16Array(buffer) on an odd byte length *)
| NotSupportedError.      (* createBuffer with zero frames *)

Inductive Result (A : Type) : Type :=
| Ok (a : A)
| Throw (e : Exn).
Arguments Ok {A} a.
Arguments Throw {A} e.

Definition bind {A B} (r : Result A) (k : A -> Result B) : Result B :=
  match r with
  | Ok a => k a
  | Throw e => Throw e
  end.

Notation "'let!' x ':=' r 'in' k" := (bind r (fun x => k))
  (at level 10, x name, r at level 100, k at level 200).

(** ** PCM codec *)

Module Codec.

(** [data[i] * 32768]: scaling by a power of two is exact. *)
Definition times32768 (x : number) : number :=
  match x with
  | Fin q => Fin (q * 32768)%Q
  | NaN => NaN
  | Infinity s => Infinity s
  end.

(** Truncation toward zero of a rational (ECMAScript [truncate]). *)
Definition truncate (q : Q) : Z := Z.quot (Qnum q) (Z.pos (Qden q)).

(** ECMAScript [ToInt16], the conversion done by a store into an
    [Int16Array]: NaN and the infinities give 0; a finite number is truncated,
    reduced modulo 2^16, and moved to the signed range. *)
Definition ToInt16 (x : number) : Z :=
  match x with
  | Fin q =>
      let int16bit := truncate q mod 65536 in
      if 32768 <=? int16bit then int16bit - 65536 else int16bit
  | NaN | Infinity _ => 0
  end.

(** The loop [int16[i] = data[i] * 32768] of [createPcmBlob]. *)
Definition int16_of_samples (data : list number) : list Z :=
  map (fun x => ToInt16 (times32768 x)) data.

(** [new Uint8Array(int16.buffer)]: the two bytes of each element, low byte
    first (little-endian host). *)
Definition int16_bytes (k : Z) : list Z :=
  let u := k mod 65536 in [u mod 256; u / 256].

Definition Uint8Array_of_Int16Array (int16 : list Z) : list Z :=
  flat_map int16_bytes int16.

(** The base64 alphabet of [btoa]. *)
Definition b64_alphabet : list ascii :=
  list_ascii_of_string
    "ABCDEFGHIJKLMNOPQRSTUVWXYZabcdefghijklmnopqrstuvwxyz0123456789+/".

Definition b64_char (n : Z) : ascii := nth (Z.to_nat n) b64_alphabet "="%char.

(** [btoa(String.fromCharCode.apply(null, bytes))]: standard base64 with
    [=] padding. *)
Fixpoint btoa (bytes : list Z) : string :=
  match bytes with
  | [] => EmptyString
  | [a] =>
      String (b64_char (a / 4))
        (String (b64_char (a mod 4 * 16)) "==")
  | [a; b] =>
      String (b64_char (a / 4))
        (String (b64_char (a mod 4 * 16 + b / 16))
           (String (b64_char (b mod 16 * 4)) "="))
  | a :: b :: c :: rest =>
      String (b64_char (a / 4))
        (String (b64_char (a mod 4 * 16 + b / 16))
           (String (b64_char (b mod 16 * 4 + c / 64))
              (String (b64_char (c mod 64)) (btoa rest))))
  end.

Record Blob : Type := { data : string; mimeType : string }.

Definition createPcmBlob (data : list number) : Blob :=
  let int16 := int16_of_samples data in
  let uint8 := Uint8Array_of_Int16Array int16 in
  let base64 := btoa uint8 in
  {| data := base64; mimeType := "audio/pcm;rate=16000" |}.

(** The value of a base64 character, [None] outside the alphabet. *)
Definition b64_value (c : ascii) : option Z :=
  let n := Z.of_N (N_of_ascii c) in
  if (65 <=? n) && (n <=? 90) then Some (n - 65)
  else if (97 <=? n) && (n <=? 122) then Some (n - 71)
  else if (48 <=? n) && (n <=? 57) then Some (n + 4)
  else if n =? 43 then Some 62
  else if n =? 47 then Some 63
  else None.

Definition is_pad (c : ascii) : bool := Ascii.eqb c "="%char.

Definition is_empty (s : string) : bool :=
  match s with EmptyString => true | String _ _ => false end.

(** Modelled from the spec: [base64ToUint8Array] of services/utils is not
    among the sources; the spec says the payload is "base64-decode[d] to
    bytes".  This is the decoder of padded base64: groups of four characters,
    [=] padding only in the last group, and a malformed payload raises the
    exception of [atob]. *)
Fixpoint base64ToUint8Array (s : string) : Result (list Z) :=
  match s with
  | EmptyString => Ok []
  | String c0 (String c1 (String c2 (String c3 rest))) =>
      match b64_value c0, b64_value c1 with
      | Some v0, Some v1 =>
          if is_pad c2 && is_pad c3 && is_empty rest then
            Ok [v0 * 4 + v1 / 16]
          else
            match b64_value c2 with
            | Some v2 =>
                if is_pad c3 && is_empty rest then
                  Ok [v0 * 4 + v1 / 16; v1 mod 16 * 16 + v2 / 4]
                else
                  match b64_value c3 with
                  | Some v3 =>
                      let! bytes := base64ToUint8Array rest in
                      Ok (v0 * 4 + v1 / 16
                          :: v1 mod 16 * 16 + v2 / 4
                          :: v2 mod 4 * 64 + v3
                          :: bytes)
                  | None => Throw InvalidCharacterError
                  end
            | None => Throw InvalidCharacterError
            end
      | _, _ => Throw InvalidCharacterError
      end
  | _ => Throw InvalidCharacterError
  end.

(** One element of an [Int16Array] view: two bytes, low byte first, read as
    a signed 16-bit integer. *)
Definition int16_of_bytes (lo hi : Z) : Z :=
  let u := lo + 256 * hi in
  if 32768 <=? u then u - 65536 else u.

(** [new Int16Array(bytes.buffer)]: a view over the same bytes; the
    constructor throws a RangeError when the byte length is odd. *)
Fixpoint Int16Array_of_buffer (bytes : list Z) : Result (list Z) :=
  match bytes with
  | [] => Ok []
  | [_] => Throw RangeError
  | lo :: hi :: rest =>
      let! int16 := Int16Array_of_buffer rest in
      Ok (int16_of_bytes lo hi :: int16)
  end.

(** [dataInt16[i] / 32768.0]: an exact rational, representable as a float. *)
Definition sample_of_int16 (k : Z) : Q := (k # 32768)%Q.

(** The loop [channelData[i] = dataInt16[i] / 32768.0]. *)
Definition dequantize (dataInt16 : list Z) : list Q :=
  map sample_of_int16 dataInt16.

Record AudioBuffer : Type := { channelData : list Q }.

(** [outputCtx.createBuffer(1, length, 24000)]: a buffer of [length] frames;
    zero frames are refused with a NotSupportedError. *)
Definition createBuffer (length : nat) : Result unit :=
  match length with
  | O => Throw NotSupportedError
  | S _ => Ok tt
  end.

(** [buffer.duration]: the number of frames over the sample rate, 24000. *)
Definition duration (b : AudioBuffer) : Q :=
  (Z.of_nat (length (channelData b)) # 24000)%Q.

(** [new Int16Array(base64ToUint8Array(base64Audio).buffer)]. *)
Definition dataInt16_of (base64Audio : string) : Result (list Z) :=
  let! bytes := base64ToUint8Array base64Audio in
  Int16Array_of_buffer bytes.

(** The decode block of [onmessage], from the payload to the filled buffer. *)
Definition decode (base64Audio : string) : Result AudioBuffer :=
  let! dataInt16 := dataInt16_of base64Audio in
  let! _ := createBuffer (length dataInt16) in
  Ok {| channelData := dequantize dataInt16 |}.

End Codec.

(** ** The component: React state, refs and the objects it creates *)

Module Session.
Import Codec.

Inductive AudioContextState : Type := Running | Closed.

(** The two functions the component chains on the session promise with
    [.then]: [session => session.sendRealtimeInput({ media: pcmData })] in
    [onaudioprocess] and [s => s.close()] in [stopSession]. *)
Inductive Reaction : Type :=
| SendRealtimeInput (media : Blob)
| CloseSession.

(** The session object of the SDK, seen through the calls made on it. *)
Record LiveSessionObj : Type := {
  realtimeInputs : list Blob;   (* sendRealtimeInput calls, oldest first *)
  closeCalls : nat              (* close() calls *)
}.

Definition newSession : LiveSessionObj :=
  {| realtimeInputs := []; closeCalls := 0 |}.

Definition react (r : Reaction) (s : LiveSessionObj) : LiveSessionObj :=
  match r with
  | SendRealtimeInput media =>
      {| realtimeInputs := realtimeInputs s ++ [media];
         closeCalls := closeCalls s |}
  | CloseSession =>
      {| realtimeInputs := realtimeInputs s; closeCalls := S (closeCalls s) |}
  end.

(** A promise of a session: pending with the reactions registered so far (in
    registration order), fulfilled with the session, or rejected. *)
Inductive PromiseState : Type :=
| Pending (reactions : list Reaction)
| Fulfilled (session : LiveSessionObj)
| Rejected.

(** [promise.then(r)]: a pending promise queues the reaction; a fulfilled one
    runs it (in a microtask, before any other event); a rejected one never
    runs it. *)
Definition then_ (r : Reaction) (p : PromiseState) : PromiseState :=
  match p with
  | Pending rs => Pending (rs ++ [r])
  | Fulfilled s => Fulfilled (react r s)
  | Rejected => Rejected
  end.

(** Settling a pending promise with a fresh session runs the queued
    reactions in order; a settled promise stays as it is. *)
Definition fulfil (p : PromiseState) : PromiseState :=
  match p with
  | Pending rs => Fulfilled (fold_left (fun s r => react r s) rs newSession)
  | _ => p
  end.

Definition reject (p : PromiseState) : PromiseState :=
  match p with
  | Pending _ => Rejected
  | _ => p
  end.

(** A call [src.start(when)] on a source node playing a buffer. *)
Record Started : Type := {
  source : nat;      (* the AudioBufferSourceNode *)
  when : Q;          (* the argument of start *)
  bufferDuration : Q (* buffer.duration of its buffer *)
}.

(** What a render of the component binds for the functions it creates:
    [startSession], and with it the [onaudioprocess] callback that
    [startSession] installs, read [isMuted] from the render in which
    [startSession] was created.  A later [setIsMuted] makes a new render with
    a new binding; it does not change this one. *)
Record Closure : Type := { captured_isMuted : bool }.

Record State : Type := {
  (* useState *)
  isConnected : bool;
  isMuted : bool;
  status : string;
  logs : list string;
  (* useRef *)
  audioContextRef : option nat;
  inputContextRef : option nat;
  sessionRef : option nat;
  sessionPromiseRef : option nat;
  nextStartTimeRef : Q;
  sourcesRef : list nat;          (* a Set, in insertion order *)
  (* objects created by the component, by identity *)
  contexts : list AudioContextState;
  promises : list PromiseState;
  processors : list Closure;      (* onaudioprocess callbacks installed *)
  streams : nat;                  (* microphone streams acquired *)
  started : list Started;         (* src.start calls, oldest first *)
  stopped : list nat              (* s.stop() calls, oldest first *)
}.

(** The component as first rendered. *)
Definition initial : State :=
  {| isConnected := false; isMuted := false;
     status := "Ready to connect"; logs := [];
     audioContextRef := None; inputContextRef := None;
     sessionRef := None; sessionPromiseRef := None;
     nextStartTimeRef := 0%Q; sourcesRef := [];
     contexts := []; promises := []; processors := []; streams := 0%nat;
     started := []; stopped := [] |}.

(** Assignments to one field ([setX(v)] or [xRef.current = v]). *)
Definition set_isConnected (v : bool) (st : State) : State :=
  {| isConnected := v;
     isMuted := isMuted st;
     status := status st;
     logs := logs st;
     audioContextRef := audioContextRef st;
     inputContextRef := inputContextRef st;
     sessionRef := sessionRef st;
     sessionPromiseRef := sessionPromiseRef st;
     nextStartTimeRef := nextStartTimeRef st;
     sourcesRef := sourcesRef st;
     contexts := contexts st;
     promises := promises st;
     processors := processors st;
     streams := streams st;
     started := started st;
     stopped := stopped st |}.

Definition set_isMuted (v : bool) (st : State) : State :=
  {| isConnected := isConnected st;
     isMuted := v;
     status := status st;
     logs := logs st;
     audioContextRef := audioContextRef st;
     inputContextRef := inputContextRef st;
     sessionRef := sessionRef st;
     sessionPromiseRef := sessionPromiseRef st;
     nextStartTimeRef := nextStartTimeRef st;
     sourcesRef := sourcesRef st;
     contexts := contexts st;
     promises := promises st;
     processors := processors st;
     streams := streams st;
     started := started st;
     stopped := stopped st |}.

Definition set_status (v : string) (st : State) : State :=
  {| isConnected := isConnected st;
     isMuted := isMuted st;
     status := v;
     logs := logs st;
     audioContextRef := audioContextRef st;
     inputContextRef := inputContextRef st;
     sessionRef := sessionRef st;
     sessionPromiseRef := sessionPromiseRef st;
     nextStartTimeRef := nextStartTimeRef st;
     sourcesRef := sourcesRef st;
     contexts := contexts st;
     promises := promises st;
     processors := processors st;
     streams := streams st;
     started := started st;
     stopped := stopped st |}.

Definition set_logs (v : list string) (st : State) : State :=
  {| isConnected := isConnected st;
     isMuted := isMuted st;
     status := status st;
     logs := v;
     audioContextRef := audioContextRef st;
     inputContextRef := inputContextRef st;
     sessionRef := sessionRef st;
     sessionPromiseRef := sessionPromiseRef st;
     nextStartTimeRef := nextStartTimeRef st;
     sourcesRef := sourcesRef st;
     contexts := contexts st;
     promises := promises st;
     processors := processors st;
     streams := streams st;
     started := started st;
     stopped := stopped st |}.

Definition set_audioContextRef (v : option nat) (st : State) : State :=
  {| isConnected := isConnected st;
     isMuted := isMuted st;
     status := status st;
     logs := logs st;
     audioContextRef := v;
     inputContextRef := inputContextRef st;
     sessionRef := sessionRef st;
     sessionPromiseRef := sessionPromiseRef st;
     nextStartTimeRef := nextStartTimeRef st;
     sourcesRef := sourcesRef st;
     contexts := contexts st;
     promises := promises st;
     processors := processors st;
     streams := streams st;
     started := started st;
     stopped := stopped st |}.

Definition set_inputContextRef (v : option nat) (st : State) : State :=
  {| isConnected := isConnected st;
     isMuted := isMuted st;
     status := status st;
     logs := logs st;
     audioContextRef := audioContextRef st;
     inputContextRef := v;
     sessionRef := sessionRef st;
     sessionPromiseRef := sessionPromiseRef st;
     nextStartTimeRef := nextStartTimeRef st;
     sourcesRef := sourcesRef st;
     contexts := contexts st;
     promises := promises st;
     processors := processors st;
     streams := streams st;
     started := started st;
     stopped := stopped st |}.

Definition set_sessionRef (v : option nat) (st : State) : State :=
  {| isConnected := isConnected st;
     isMuted := isMuted st;
     status := status st;
     logs := logs st;
     audioContextRef := audioContextRef st;
     inputContextRef := inputContextRef st;
     sessionRef := v;
     sessionPromiseRef := sessionPromiseRef st;
     nextStartTimeRef := nextStartTimeRef st;
     sourcesRef := sourcesRef st;
     contexts := contexts st;
     promises := promises st;
     processors := processors st;
     streams := streams st;
     started := started st;
     stopped := stopped st |}.

Definition set_sessionPromiseRef (v : option nat) (st : State) : State :=
  {| isConnected := isConnected st;
     isMuted := isMuted st;
     status := status st;
     logs := logs st;
     audioContextRef := audioContextRef st;
     inputContextRef := inputContextRef st;
     sessionRef := sessionRef st;
     sessionPromiseRef := v;
     nextStartTimeRef := nextStartTimeRef st;
     sourcesRef := sourcesRef st;
     contexts := contexts st;
     promises := promises st;
     processors := processors st;
     streams := streams st;
     started := started st;
     stopped := stopped st |}.

Definition set_nextStartTimeRef (v : Q) (st : State) : State :=
  {| isConnected := isConnected st;
     isMuted := isMuted st;
     status := status st;
     logs := logs st;
     audioContextRef := audioContextRef st;
     inputContextRef := inputContextRef st;
     sessionRef := sessionRef st;
     sessionPromiseRef := sessionPromiseRef st;
     nextStartTimeRef := v;
     sourcesRef := sourcesRef st;
     contexts := contexts st;
     promises := promises st;
     processors := processors st;
     streams := streams st;
     started := started st;
     stopped := stopped st |}.

Definition set_sourcesRef (v : list nat) (st : State) : State :=
  {| isConnected := isConnected st;
     isMuted := isMuted st;
     status := status st;
     logs := logs st;
     audioContextRef := audioContextRef st;
     inputContextRef := inputContextRef st;
     sessionRef := sessionRef st;
     sessionPromiseRef := sessionPromiseRef st;
     nextStartTimeRef := nextStartTimeRef st;
     sourcesRef := v;
     contexts := contexts st;
     promises := promises st;
     processors := processors st;
     streams := streams st;
     started := started st;
     stopped := stopped st |}.

Definition set_contexts (v : list AudioContextState) (st : State) : State :=
  {| isConnected := isConnected st;
     isMuted := isMuted st;
     status := status st;
     logs := logs st;
     audioContextRef := audioContextRef st;
     inputContextRef := inputContextRef st;
     sessionRef := sessionRef st;
     sessionPromiseRef := sessionPromiseRef st;
     nextStartTimeRef := nextStartTimeRef st;
     sourcesRef := sourcesRef st;
     contexts := v;
     promises := promises st;
     processors := processors st;
     streams := streams st;
     started := started st;
     stopped := stopped st |}.

Definition set_promises (v : list PromiseState) (st : State) : State :=
  {| isConnected := isConnected st;
     isMuted := isMuted st;
     status := status st;
     logs := logs st;
     audioContextRef := audioContextRef st;
     inputContextRef := inputContextRef st;
     sessionRef := sessionRef st;
     sessionPromiseRef := sessionPromiseRef st;
     nextStartTimeRef := nextStartTimeRef st;
     sourcesRef := sourcesRef st;
     contexts := contexts st;
     promises := v;
     processors := processors st;
     streams := streams st;
     started := started st;
     stopped := stopped st |}.

Definition set_processors (v : list Closure) (st : State) : State :=
  {| isConnected := isConnected st;
     isMuted := isMuted st;
     status := status st;
     logs := logs st;
     audioContextRef := audioContextRef st;
     inputContextRef := inputContextRef st;
     sessionRef := sessionRef st;
     sessionPromiseRef := sessionPromiseRef st;
     nextStartTimeRef := nextStartTimeRef st;
     sourcesRef := sourcesRef st;
     contexts := contexts st;
     promises := promises st;
     processors := v;
     streams := streams st;
     started := started st;
     stopped := stopped st |}.

Definition set_streams (v : nat) (st : State) : State :=
  {| isConnected := isConnected st;
     isMuted := isMuted st;
     status := status st;
     logs := logs st;
     audioContextRef := audioContextRef st;
     inputContextRef := inputContextRef st;
     sessionRef := sessionRef st;
     sessionPromiseRef := sessionPromiseRef st;
     nextStartTimeRef := nextStartTimeRef st;
     sourcesRef := sourcesRef st;
     contexts := contexts st;
     promises := promises st;
     processors := processors st;
     streams := v;
     started := started st;
     stopped := stopped st |}.

Definition set_started (v : list Started) (st : State) : State :=
  {| isConnected := isConnected st;
     isMuted := isMuted st;
     status := status st;
     logs := logs st;
     audioContextRef := audioContextRef st;
     inputContextRef := inputContextRef st;
     sessionRef := sessionRef st;
     sessionPromiseRef := sessionPromiseRef st;
     nextStartTimeRef := nextStartTimeRef st;
     sourcesRef := sourcesRef st;
     contexts := contexts st;
     promises := promises st;
     processors := processors st;
     streams := streams st;
     started := v;
     stopped := stopped st |}.

Definition set_stopped (v : list nat) (st : State) : State :=
  {| isConnected := isConnected st;
     isMuted := isMuted st;
     status := status st;
     logs := logs st;
     audioContextRef := audioContextRef st;
     inputContextRef := inputContextRef st;
     sessionRef := sessionRef st;
     sessionPromiseRef := sessionPromiseRef st;
     nextStartTimeRef := nextStartTimeRef st;
     sourcesRef := sourcesRef st;
     contexts := contexts st;
     promises := promises st;
     processors := processors st;
     streams := streams st;
     started := started st;
     stopped := v |}.

(** [addLog(msg)]: [setLogs(prev => [msg, ...prev].slice(0, 5))]. *)
Definition addLog (msg : string) (st : State) : State :=
  set_logs (take 5 (msg :: logs st)) st.

(** [x < y] on numbers that are finite. *)
Definition Qltb (x y : Q) : bool := negb (Qle_bool y x).

(** [Set.prototype.add] and [Set.prototype.delete] on a Set kept in insertion
    order. *)
Definition Set_add (x : nat) (s : list nat) : list nat :=
  if bool_decide (x ∈ s) then s else s ++ [x].

Definition Set_delete (x : nat) (s : list nat) : list nat :=
  filter (λ y, y ≠ x) s.

(** [sessionPromiseRef.current.then(r)] on the promise [p]. *)
Definition promise_then (p : nat) (r : Reaction) (st : State) : State :=
  set_promises (alter (then_ r) p (promises st)) st.

(** [ctx.close()]: the context ends up closed; on a closed context the call
    returns a rejected promise and changes nothing. *)
Definition close_context (c : nat) (st : State) : State :=
  set_contexts (alter (λ _, Closed) c (contexts st)) st.

(** *** Capture: [scriptProcessor.onaudioprocess] *)

(** The bindings of the render of the current state. *)
Definition render (st : State) : Closure :=
  {| captured_isMuted := isMuted st |}.

(** The callback, run on the samples of [e.inputBuffer.getChannelData(0)]. *)
Definition onaudioprocess (cl : Closure) (inputData : list number)
    (st : State) : State :=
  if captured_isMuted cl then st
  else
    let pcmData := createPcmBlob inputData in
    match sessionPromiseRef st with
    | Some p => promise_then p (SendRealtimeInput pcmData) st
    | None => st
    end.

(** The audio hardware fires the callback of the script processor [node]. *)
Definition audioprocess (node : nat) (inputData : list number)
    (st : State) : State :=
  match processors st !! node with
  | Some cl => onaudioprocess cl inputData st
  | None => st
  end.

(** The mute button: [setIsMuted(!isMuted)]. *)
Definition toggleMute (st : State) : State :=
  set_isMuted (negb (isMuted st)) st.

(** *** Playback: the blocks of [onmessage] *)

(** The fields of a [LiveServerMessage] the handler reads:
    [serverContent?.modelTurn?.parts?.[0]?.inlineData?.data] and
    [serverContent?.interrupted]. *)
Record LiveServerMessage : Type := {
  inlineData : option string;
  interrupted : bool
}.

(** The scheduling block, for the decoded [buffer] and
    [currentTime = outputCtx.currentTime].  The new source node is named by
    the number of sources started before it. *)
Definition scheduleBuffer (currentTime : Q) (buffer : AudioBuffer)
    (st : State) : State :=
  let src := length (started st) in
  let st :=
    if Qltb (nextStartTimeRef st) currentTime
    then set_nextStartTimeRef currentTime st
    else st in
  let st :=
    set_started
      (started st ++
         [{| source := src; when := nextStartTimeRef st;
             bufferDuration := duration buffer |}]) st in
  let st :=
    set_nextStartTimeRef (nextStartTimeRef st + duration buffer)%Q st in
  set_sourcesRef (Set_add src (sourcesRef st)) st.

(** [src.onended]: [sourcesRef.current.delete(src)]. *)
Definition onended (src : nat) (st : State) : State :=
  set_sourcesRef (Set_delete src (sourcesRef st)) st.

(** The interruption block. *)
Definition handleInterruption (st : State) : State :=
  let st := addLog "Interrupted" st in
  let st := set_stopped (stopped st ++ sourcesRef st) st in
  let st := set_sourcesRef [] st in
  set_nextStartTimeRef 0%Q st.

(** The audio block of the handler: skipped without a payload (an empty
    string is falsy), else decode and schedule. *)
Definition handleAudio (currentTime : Q) (message : LiveServerMessage)
    (st : State) : Result State :=
  match inlineData message with
  | Some base64Audio =>
      if is_empty base64Audio then Ok st
      else
        let! buffer := decode base64Audio in
        Ok (scheduleBuffer currentTime buffer st)
  | None => Ok st
  end.

(** The handler.  It is an async function without an await: it runs to its
    end, and an exception ends it where it is raised (the promise of the
    handler is rejected, nobody handles it).  The result is the state the
    handler leaves and the exception, if any.  The only statements that can
    throw are those of the decode block, which come before the first
    assignment, so the state left by a throw is the state found. *)
Definition onmessage (currentTime : Q) (message : LiveServerMessage)
    (st : State) : State * option Exn :=
  match handleAudio currentTime message st with
  | Throw e => (st, Some e)
  | Ok st =>
      (if interrupted message then handleInterruption st else st, None)
  end.

(** *** Life cycle *)

Definition onopen (st : State) : State :=
  let st := set_isConnected true st in
  let st := set_status "Connected (Gemini 2.5)" st in
  addLog "Session opened" st.

Definition onclose (st : State) : State :=
  let st := set_isConnected false st in
  set_status "Disconnected" st.

Definition onerror (st : State) : State :=
  let st := set_status "Error occurred" st in
  addLog "Error in session" st.

(** The outcome of [navigator.mediaDevices.getUserMedia]. *)
Inductive UserMedia : Type :=
| Granted
| Denied (message : string).

(** [startSession] up to [await getUserMedia].  [apiKey] tells whether
    [getLiveClient()] finds its key; without it the call throws and the
    catch block reports it.  The result tells whether the function is
    suspended at the await. *)
Definition startSession_enter (apiKey : bool) (st : State) : State * bool :=
  let st := set_status "Connecting..." st in
  if apiKey then
    let outputCtx := length (contexts st) in
    let st := set_contexts (contexts st ++ [Running]) st in
    let st := set_audioContextRef (Some outputCtx) st in
    let inputCtx := length (contexts st) in
    let st := set_contexts (contexts st ++ [Running]) st in
    let st := set_inputContextRef (Some inputCtx) st in
    (st, true)
  else
    (set_status
       "Connection Failed: API Key not found in environment variables." st,
     false).

(** [startSession] after the await: the capture callback is installed with
    the bindings [cl] of the render that created this [startSession],
    [ai.live.connect] returns a pending promise, and the ref keeps it. *)
Definition startSession_resume (cl : Closure) (media : UserMedia)
    (st : State) : State :=
  match media with
  | Granted =>
      let st := set_streams (S (streams st)) st in
      let st := set_processors (processors st ++ [cl]) st in
      let sessionPromise := length (promises st) in
      let st := set_promises (promises st ++ [Pending []]) st in
      set_sessionPromiseRef (Some sessionPromise) st
  | Denied message =>
      set_status ("Connection Failed: " ++ message) st
  end.

(** The [startSession] created by the render [cl], run to its end. *)
Definition startSession (cl : Closure) (apiKey : bool) (media : UserMedia)
    (st : State) : State :=
  let (st, suspended) := startSession_enter apiKey st in
  if suspended then startSession_resume cl media st else st.

(** The Start Conversation button, [onClick={startSession}]: the function
    of the render on screen. *)
Definition clickStart (apiKey : bool) (media : UserMedia)
    (st : State) : State :=
  startSession (render st) apiKey media st.

Definition stopSession (st : State) : State :=
  let st :=
    match sessionPromiseRef st with
    | Some p => promise_then p CloseSession st
    | None => st
    end in
  let st :=
    match audioContextRef st with
    | Some c => close_context c st
    | None => st
    end in
  let st :=
    match inputContextRef st with
    | Some c => close_context c st
    | None => st
    end in
  let st := set_isConnected false st in
  let st := set_status "Ready to connect" st in
  let st := set_sessionRef None st in
  set_sessionPromiseRef None st.

(** The SDK settles the promise [p] returned by [ai.live.connect]. *)
Definition connect_fulfilled (p : nat) (st : State) : State :=
  set_promises (alter fulfil p (promises st)) st.

Definition connect_rejected (p : nat) (st : State) : State :=
  set_promises (alter reject p (promises st)) st.

(** The session behind the promise [p], once there is one. *)
Definition session_of (p : nat) (st : State) : option LiveSessionObj :=
  match promises st !! p with
  | Some (Fulfilled s) => Some s
  | _ => None
  end.

(** *** Runs *)

(** The scheduling block run on the buffers of [arrivals] in turn, each with
    the clock time at which its message is handled. *)
Fixpoint scheduleAll (arrivals : list (Q * AudioBuffer)) (st : State) : State :=
  match arrivals with
  | [] => st
  | (currentTime, buffer) :: rest =>
      scheduleAll rest (scheduleBuffer currentTime buffer st)
  end.

(** The [src.start] calls made by such a run. *)
Definition scheduled (arrivals : list (Q * AudioBuffer)) (st : State)
  : list Started :=
  drop (length (started st)) (started (scheduleAll arrivals st)).

(** What the scheduler owns: [NextStartTime] and the active set. *)
Definition scheduler_state (st : State) : Q * list nat :=
  (nextStartTimeRef st, sourcesRef st).

(** The capture callback run on the frames of [frames] in turn. *)
Fixpoint captureAll (cl : Closure) (frames : list (list number))
    (st : State) : State :=
  match frames with
  | [] => st
  | inputData :: rest => captureAll cl rest (onaudioprocess cl inputData st)
  end.

(** The reactions chained by the unmuted callback for these frames. *)
Definition sends (frames : list (list number)) : list Reaction :=
  map (fun inputData => SendRealtimeInput (createPcmBlob inputData)) frames.

(** The session a pending promise with reactions [rs] is fulfilled with. *)
Definition settled (rs : list Reaction) : LiveSessionObj :=
  fold_left (fun s r => react r s) rs newSession.

End Session.

(** ** Concrete sessions *)

Module Scenario.
Import Codec Session.

(** A buffer of [n] frames, and a captured frame of four samples. *)
Definition tone (n : nat) : AudioBuffer :=
  {| channelData := repeat (1 # 2)%Q n |}.

Definition frame : list number :=
  [Fin 0; Fin (1 # 2); Fin (-1 # 2); Fin (1 # 4)].

(** Start Conversation on the first render, microphone granted: the capture
    callback closes over that render, and the connection is being made. *)
Definition first_render : Closure := render initial.

Definition connecting : State := clickStart true Granted initial.

(** The connection opens: [onopen], then the promise is fulfilled. *)
Definition connected : State := connect_fulfilled 0 (onopen connecting).

(** One chunk of two frames is scheduled at clock 0 ... *)
Definition playing : State := scheduleBuffer 0 (tone 2) connected.

(** ... and plays to its end. *)
Definition played : State := onended 0 playing.

(** Two chunks handled at the same clock time, a tenth of a second after
    the context was created, and the [start] calls they get. *)
Definition two_chunks : list (Q * AudioBuffer) :=
  [((1 # 10)%Q, tone 2); ((1 # 10)%Q, tone 3)].

Definition first_start : Started :=
  {| source := 0; when := (1 # 10)%Q; bufferDuration := (2 # 24000)%Q |}.

Definition second_start : Started :=
  {| source := 1; when := ((1 # 10) + (2 # 24000))%Q;
     bufferDuration := (3 # 24000)%Q |}.

(** The user mutes the microphone during the call. *)
Definition muted : State := toggleMute connected.

(** End Call, then Start Conversation again: the new capture callback
    closes over a render in which the microphone is muted.  The connection
    opens and the user unmutes. *)
Definition second_render : Closure := render (stopSession muted).

Definition reconnected : State :=
  connect_fulfilled 1 (onopen (clickStart true Granted (stopSession muted))).

Definition unmuted : State := toggleMute reconnected.


(** A message with the flag [interrupted] and no audio. *)
Definition interruption : LiveServerMessage :=
  {| inlineData := None; interrupted := true |}.

(** A message whose payload is valid base64 for a single byte. *)
Definition odd_chunk : LiveServerMessage :=
  {| inlineData := Some "AA=="%string; interrupted := false |}.

(** A message whose payload is not base64. *)
Definition garbled_chunk : LiveServerMessage :=
  {| inlineData := Some "A*A="%string; interrupted := true |}.

End Scenario.


(** ** The words of the specification, for comparison with the code *)

Module Spec.

Definition is_byte (b : Z) : Prop := 0 <= b < 256.

Definition is_int16 (k : Z) : Prop := -32768 <= k <= 32767.

(** "Truncates": the integer part toward zero, by floor and ceiling. *)
Definition truncate_toward_zero (q : Q) : Z :=
  if Qle_bool 0 q then Qfloor q else Qceiling q.

(** "Reducing modulo 2^16 into the signed range [-32768, 32767]". *)
Definition wrap_int16 (z : Z) : Z := (z + 32768) mod 65536 - 32768.

(** "Within one quantization step (<= 1/32768 per sample)". *)
Definition within_one_step (x y : Q) : Prop :=
  (Qabs (x - y) <= 1 # 32768)%Q.

End Spec.

(** ** Runs of the component *)

Module Run.
Import Codec Session.

(** What can happen to the component.  [startSession] is cut at its await,
    and the events are more than the browser delivers (an [onended] for any
    source, a resumption with any closure): what holds after every run of
    these events holds after every run of the component. *)
Inductive Event : Type :=
| StartEnter (apiKey : bool)
| StartResume (cl : Closure) (media : UserMedia)
| StopSession                       (* End Call, or the unmount cleanup *)
| ToggleMute
| AudioProcess (node : nat) (inputData : list number)
| ConnectFulfilled (p : nat)
| ConnectRejected (p : nat)
| OnOpen
| OnClose
| OnError
| OnMessage (currentTime : Q) (message : LiveServerMessage)
| OnEnded (src : nat).

Definition handle (e : Event) (st : State) : State :=
  match e with
  | StartEnter apiKey => fst (startSession_enter apiKey st)
  | StartResume cl media => startSession_resume cl media st
  | StopSession => stopSession st
  | ToggleMute => toggleMute st
  | AudioProcess node inputData => audioprocess node inputData st
  | ConnectFulfilled p => connect_fulfilled p st
  | ConnectRejected p => connect_rejected p st
  | OnOpen => onopen st
  | OnClose => onclose st
  | OnError => onerror st
  | OnMessage currentTime message => fst (onmessage currentTime message st)
  | OnEnded src => onended src st
  end.

Definition run (events : list Event) (st : State) : State :=
  fold_left (fun st e => handle e st) events st.

Definition reachable (st : State) : Prop :=
  exists events, st = run events initial.

(** The refs hold objects that exist. *)
Definition refs_valid (st : State) : Prop :=
  (forall c, audioContextRef st = Some c -> (c < length (contexts st))%nat) /\
  (forall c, inputContextRef st = Some c -> (c < length (contexts st))%nat) /\
  (forall p, sessionPromiseRef st = Some p -> (p < length (promises st))%nat).

(** The active set and the stop calls name sources that were started, each
    at most once, and no source of the active set has been stopped. *)
Definition sources_valid (st : State) : Prop :=
  NoDup (sourcesRef st) /\ NoDup (stopped st) /\
  (forall src, src ∈ sourcesRef st ->
     (src < length (started st))%nat /\ src ∉ stopped st) /\
  (forall src, src ∈ stopped st -> (src < length (started st))%nat).

(** [addLog] for each message of [msgs] in turn. *)
Definition addLogs (msgs : list string) (st : State) : State :=
  fold_left (fun st msg => addLog msg st) msgs st.

(** A message with two samples of audio (four zero bytes). *)
Definition chunk : LiveServerMessage :=
  {| inlineData := Some "AAAAAA=="%string; interrupted := false |}.

(** A call: start, a frame captured while connecting, the connection, two
    chunks of which the first plays to its end, an interruption, mute, and
    End Call. *)
Definition a_call : list Event :=
  [StartEnter true; StartResume (render initial) Granted;
   AudioProcess 0 Scenario.frame; OnOpen; ConnectFulfilled 0;
   OnMessage 0 chunk; OnMessage (1 # 100) chunk; OnEnded 0;
   OnMessage (2 # 100) Scenario.interruption; ToggleMute;
   AudioProcess 0 Scenario.frame; StopSession].

End Run.

(** ** The client of the remote service (src/services/geminiService.ts) *)

Module Service.
Import Codec.

(** A call returns, or throws [new Error(message)]. *)
Inductive Outcome (A : Type) : Type :=
| Returns (a : A)
| Error (message : string).
Arguments Returns {A} a.
Arguments Error {A} message.

(** [getAI], on the value of [process.env.API_KEY]; the client is known by
    its key.  A missing key and an empty key are both falsy. *)
Definition getAI (API_KEY : option string) : Outcome string :=
  match API_KEY with
  | Some apiKey =>
      if is_empty apiKey
      then Error "API Key not found in environment variables."
      else Returns apiKey
  | None => Error "API Key not found in environment variables."
  end.

Definition getLiveClient (API_KEY : option string) : Outcome string :=
  getAI API_KEY.

(** What [startSession] sees of [getLiveClient()]. *)
Definition has_client (API_KEY : option string) : bool :=
  match getLiveClient API_KEY with
  | Returns _ => true
  | Error _ => false
  end.

(** The parts of [response.candidates?.[0]?.content?.parts] that
    [generateImage] reads: a part has an [inlineData] object or not, and the
    object has a [data] string or not. *)
Record Part : Type := { inlineData : option (option string) }.

Record Candidate : Type := { parts : option (list Part) }.

Record Response : Type := { candidates : option (list Candidate) }.

(** [response.candidates?.[0]?.content?.parts || []]. *)
Definition parts_of (response : Response) : list Part :=
  match candidates response with
  | Some (candidate :: _) =>
      match parts candidate with
      | Some ps => ps
      | None => []
      end
  | _ => []
  end.

(** The loop of [generateImage] over the parts, with its early return of
    [part.inlineData.data] ([None] is [undefined]). *)
Fixpoint first_image (ps : list Part) : Outcome (option string) :=
  match ps with
  | [] => Error "No image generated."
  | part :: rest =>
      match inlineData part with
      | Some data => Returns data
      | None => first_image rest
      end
  end.

(** [generateImage], from the key and the outcome of the request
    [ai.models.generateContent]. *)
Definition generateImage (API_KEY : option string)
    (reply : Outcome Response) : Outcome (option string) :=
  match getAI API_KEY with
  | Error message => Error message
  | Returns _ =>
      match reply with
      | Error message => Error message
      | Returns response => first_image (parts_of response)
      end
  end.

End Service.

(** ** The reader: history, bookmarks and playback position (src/App.tsx) *)

Module Reader.

(** Times of the audio element are exact rationals, as those of the playback
    clock are; [seconds / 60] is exact here and rounded in the source. *)

Record Bookmark : Type := {
  bookmark_id : string;
  time : Q;
  label : string
}.

Record HistoryItem : Type := {
  item_id : string;
  fileName : string;
  uploadDate : Z;
  text : string;
  language : string;
  bookmarks : list Bookmark;
  lastPosition : Q
}.

(** [Partial<HistoryItem>]: the fields an update gives. *)
Record Updates : Type := {
  new_id : option string;
  new_fileName : option string;
  new_uploadDate : option Z;
  new_text : option string;
  new_language : option string;
  new_bookmarks : option (list Bookmark);
  new_lastPosition : option Q
}.

Definition no_updates : Updates :=
  {| new_id := None; new_fileName := None; new_uploadDate := None;
     new_text := None; new_language := None; new_bookmarks := None;
     new_lastPosition := None |}.

(** [{ bookmarks: bs }] and [{ lastPosition: t }]. *)
Definition with_bookmarks (bs : list Bookmark) : Updates :=
  {| new_id := None; new_fileName := None; new_uploadDate := None;
     new_text := None; new_language := None; new_bookmarks := Some bs;
     new_lastPosition := None |}.

Definition with_lastPosition (t : Q) : Updates :=
  {| new_id := None; new_fileName := None; new_uploadDate := None;
     new_text := None; new_language := None; new_bookmarks := None;
     new_lastPosition := Some t |}.

(** [{ ...item, ...updates }]. *)
Definition spread (item : HistoryItem) (updates : Updates) : HistoryItem :=
  {| item_id := default (item_id item) (new_id updates);
     fileName := default (fileName item) (new_fileName updates);
     uploadDate := default (uploadDate item) (new_uploadDate updates);
     text := default (text item) (new_text updates);
     language := default (language item) (new_language updates);
     bookmarks := default (bookmarks item) (new_bookmarks updates);
     lastPosition := default (lastPosition item) (new_lastPosition updates) |}.

(** The decimal text of an integer, as a template literal prints it. *)
Definition decimal (z : Z) : string :=
  DecimalString.NilZero.string_of_int (Z.to_int z).

(** [x % 60] on numbers: the remainder has the sign of [x]. *)
Definition rem60 (x : Q) : Q :=
  (x - 60 * inject_Z (Codec.truncate (x / 60)))%Q.

(** [Math.floor(seconds / 60)] and [Math.floor(seconds % 60)]. *)
Definition minutes (seconds : Q) : Z := Qfloor (seconds / 60).

Definition seconds_left (seconds : Q) : Z := Qfloor (rem60 seconds).

Definition formatTime (seconds : Q) : string :=
  let m := minutes seconds in
  let s := seconds_left seconds in
  (decimal m ++ ":" ++ (if Z.ltb s 10 then "0" else "") ++ decimal s)%string.

(** The audio element behind [audioRef], when it is on screen. *)
Record Audio : Type := { currentTime : Q; playing : bool }.

Record ProcessingState : Type := {
  isLoading : bool;
  status : string;
  error : option string
}.

Record State : Type := {
  procState : ProcessingState;
  extractedText : string;
  detectedLang : string;
  audioUrl : option string;
  currentDocId : option string;
  history : list HistoryItem;
  audioRef : option Audio
}.

Definition set_history (v : list HistoryItem) (st : State) : State :=
  {| procState := procState st; extractedText := extractedText st;
     detectedLang := detectedLang st; audioUrl := audioUrl st;
     currentDocId := currentDocId st; history := v;
     audioRef := audioRef st |}.

Definition set_audioRef (v : option Audio) (st : State) : State :=
  {| procState := procState st; extractedText := extractedText st;
     detectedLang := detectedLang st; audioUrl := audioUrl st;
     currentDocId := currentDocId st; history := history st;
     audioRef := v |}.

(** [currentDocId] as a condition: [null] and the empty string are falsy. *)
Definition truthy (id : option string) : option string :=
  match id with
  | Some s => if Codec.is_empty s then None else Some s
  | None => None
  end.

(** [history.find(h => h.id === id)]. *)
Definition find_item (id : string) (h : list HistoryItem) : option HistoryItem :=
  List.find (fun item => String.eqb (item_id item) id) h.

(** [setHistory(prev => prev.map(item => item.id === id ? {...item,
    ...updates} : item))]. *)
Definition updateHistoryItem (id : string) (updates : Updates)
    (st : State) : State :=
  set_history
    (map (fun item =>
            if String.eqb (item_id item) id then spread item updates
            else item)
       (history st)) st.

(** [deleteHistoryItem]: the item is filtered out, and the reader is cleared
    when it showed that item. *)
Definition deleteHistoryItem (id : string) (st : State) : State :=
  let kept :=
    List.filter (fun item => negb (String.eqb (item_id item) id))
      (history st) in
  match currentDocId st with
  | Some current =>
      if String.eqb current id then
        {| procState := procState st; extractedText := "";
           detectedLang := detectedLang st; audioUrl := None;
           currentDocId := None; history := kept;
           audioRef := audioRef st |}
      else set_history kept st
  | None => set_history kept st
  end.

(** [Array.prototype.sort((a, b) => a.time - b.time)]: the sort is stable,
    and on finite times the order is total, so the result is the one of any
    stable sort; here, insertion from the right. *)
Fixpoint insert (b : Bookmark) (l : list Bookmark) : list Bookmark :=
  match l with
  | [] => [b]
  | x :: rest =>
      if Qle_bool (time b) (time x) then b :: x :: rest
      else x :: insert b rest
  end.

Definition sort_by_time (l : list Bookmark) : list Bookmark :=
  foldr insert [] l.

(** [handleAddBookmark], with the value of [crypto.randomUUID()]. *)
Definition handleAddBookmark (uuid : string) (st : State) : State :=
  match audioRef st, truthy (currentDocId st) with
  | Some audio, Some docId =>
      let newBookmark :=
        {| bookmark_id := uuid; time := currentTime audio;
           label := ("Bookmark at " ++ formatTime (currentTime audio))%string
        |} in
      match find_item docId (history st) with
      | Some currentItem =>
          updateHistoryItem docId
            (with_bookmarks
               (sort_by_time (bookmarks currentItem ++ [newBookmark]))) st
      | None => st
      end
  | _, _ => st
  end.

Definition handleJumpToBookmark (t : Q) (st : State) : State :=
  match audioRef st with
  | Some audio => set_audioRef (Some {| currentTime := t; playing := true |}) st
  | None => st
  end.

Definition handleAudioPause (st : State) : State :=
  match audioRef st, truthy (currentDocId st) with
  | Some audio, Some docId =>
      updateHistoryItem docId (with_lastPosition (currentTime audio)) st
  | _, _ => st
  end.

(** [x < y] on times. *)
Definition Qltb (x y : Q) : bool := negb (Qle_bool y x).

(** [handleAudioLoaded]: the player seeks to the stored position when that
    is more than five seconds in. *)
Definition handleAudioLoaded (st : State) : State :=
  match audioRef st, truthy (currentDocId st) with
  | Some audio, Some docId =>
      match find_item docId (history st) with
      | Some item =>
          if Qltb 0 (lastPosition item) then
            if Qltb 5 (lastPosition item) then
              set_audioRef
                (Some {| currentTime := lastPosition item;
                         playing := playing audio |}) st
            else st
          else st
      | None => st
      end
  | _, _ => st
  end.

Definition handleHistoryClick (item : HistoryItem) (st : State) : State :=
  {| procState :=
       {| isLoading := false; status := "Loaded from history";
          error := None |};
     extractedText := text item;
     detectedLang := language item;
     audioUrl := None;
     currentDocId := Some (item_id item);
     history := history st;
     audioRef := audioRef st |}.

(** [handleFileUpload] once the text has been extracted: [newDocId] is the
    value of [crypto.randomUUID()], [now] that of [Date.now()]. *)
Definition handleFileUpload_done (newDocId name : string) (now : Z)
    (result_text result_language : string) (st : State) : State :=
  let newItem :=
    {| item_id := newDocId; fileName := name; uploadDate := now;
       text := result_text; language := result_language;
       bookmarks := []; lastPosition := 0%Q |} in
  {| procState :=
       {| isLoading := false; status := "Ready to read"; error := None |};
     extractedText := result_text;
     detectedLang := result_language;
     audioUrl := audioUrl st;
     currentDocId := Some newDocId;
     history := newItem :: history st;
     audioRef := audioRef st |}.

(** Bookmarks in the order of their times. *)
Definition by_time (a b : Bookmark) : Prop := (time a <= time b)%Q.

(** A reader with two documents, the first playing at 1:30 and bookmarked
    at 2:00. *)
Definition library : State :=
  {| procState := {| isLoading := false; status := "Playing audio";
                     error := None |};
     extractedText := "text"; detectedLang := "en";
     audioUrl := Some "blob:1"%string; currentDocId := Some "doc"%string;
     history :=
       [{| item_id := "doc"; fileName := "a.pdf"; uploadDate := 0;
           text := "text"; language := "en";
           bookmarks :=
             [{| bookmark_id := "b0"; time := 120%Q;
                 label := "Bookmark at 2:00" |}];
           lastPosition := 0%Q |};
        {| item_id := "old"; fileName := "b.pdf"; uploadDate := 0;
           text := "older"; language := "es"; bookmarks := [];
           lastPosition := 7%Q |}];
     audioRef := Some {| currentTime := 90%Q; playing := true |} |}.

End Reader.

(** * Properties *)

Import Codec Session Spec.

(** ** Base64 *)

(** Every sextet is one of the 64 values, listed for case analysis. *)
Lemma sextet_cases (n : Z) :
  0 <= n < 64 -> In n (map Z.of_nat (seq 0 64)).
Proof.
  intros Hn. apply in_map_iff. exists (Z.to_nat n). split; [lia|].
  apply in_seq. lia.
Qed.

Lemma b64_value_char (n : Z) :
  0 <= n < 64 -> b64_value (b64_char n) = Some n.
Proof.
  intros Hn. apply sextet_cases in Hn.
  revert n Hn. apply List.Forall_forall.
  repeat (apply List.Forall_cons; [reflexivity|]). apply List.Forall_nil.
Qed.

Lemma b64_char_not_pad (n : Z) :
  0 <= n < 64 -> is_pad (b64_char n) = false.
Proof.
  intros Hn. apply sextet_cases in Hn.
  revert n Hn. apply List.Forall_forall.
  repeat (apply List.Forall_cons; [reflexivity|]). apply List.Forall_nil.
Qed.

(** Lists three elements at a time, the way [btoa] consumes them. *)
Lemma list_ind3 {A} (P : list A -> Prop) :
  P [] ->
  (forall a, P [a]) ->
  (forall a b, P [a; b]) ->
  (forall a b c rest, P rest -> P (a :: b :: c :: rest)) ->
  forall l, P l.
Proof.
  intros H0 H1 H2 H3.
  fix IH 1. intros [|a [|b [|c rest]]];
    [exact H0 | exact (H1 a) | exact (H2 a b) | exact (H3 a b c rest (IH rest))].
Qed.

Lemma sextets_in_range (a b c : Z) :
  is_byte a -> is_byte b -> is_byte c ->
  0 <= a / 4 < 64 /\ 0 <= a mod 4 * 16 + b / 16 < 64 /\
  0 <= b mod 16 * 4 + c / 64 < 64 /\ 0 <= c mod 64 < 64 /\
  0 <= a mod 4 * 16 < 64 /\ 0 <= b mod 16 * 4 < 64.
Proof. unfold is_byte. intros. repeat split; Z.div_mod_to_equations; lia. Qed.

Lemma sextets_rebuild (a b c : Z) :
  is_byte a -> is_byte b -> is_byte c ->
  a / 4 * 4 + (a mod 4 * 16 + b / 16) / 16 = a /\
  (a mod 4 * 16 + b / 16) mod 16 * 16 + (b mod 16 * 4 + c / 64) / 4 = b /\
  (b mod 16 * 4 + c / 64) mod 4 * 64 + c mod 64 = c.
Proof. unfold is_byte. intros. repeat split; Z.div_mod_to_equations; lia. Qed.

(** The decoder inverts [btoa] on byte sequences. *)
Lemma base64_roundtrip (bytes : list Z) :
  Forall is_byte bytes -> base64ToUint8Array (btoa bytes) = Ok bytes.
Proof.
  induction bytes as [|a|a b|a b c rest IH] using list_ind3; intros Hb.
  - reflexivity.
  - apply Forall_cons in Hb as [Ha _].
    assert (H0 : is_byte 0) by (unfold is_byte; lia).
    destruct (sextets_in_range a 0 0 Ha H0 H0) as (R0 & R1 & _).
    destruct (sextets_rebuild a 0 0 Ha H0 H0) as (E0 & _).
    change (0 / 16) with 0 in *. rewrite Z.add_0_r in *.
    cbn [btoa base64ToUint8Array].
    rewrite !b64_value_char by assumption.
    cbn. now rewrite E0.
  - apply Forall_cons in Hb as [Ha Hb]. apply Forall_cons in Hb as [Hb _].
    assert (H0 : is_byte 0) by (unfold is_byte; lia).
    destruct (sextets_in_range a b 0 Ha Hb H0) as (R0 & R1 & R2 & _).
    destruct (sextets_rebuild a b 0 Ha Hb H0) as (E0 & E1 & _).
    change (0 / 64) with 0 in *. rewrite Z.add_0_r in *.
    cbn [btoa base64ToUint8Array].
    rewrite !b64_value_char by assumption.
    rewrite (b64_char_not_pad _ R2). cbn. now rewrite E0, E1.
  - apply Forall_cons in Hb as [Ha Hb]. apply Forall_cons in Hb as [Hb Hc].
    apply Forall_cons in Hc as [Hc Hrest].
    destruct (sextets_in_range a b c Ha Hb Hc) as (R0 & R1 & R2 & R3 & _).
    destruct (sextets_rebuild a b c Ha Hb Hc) as (E0 & E1 & E2).
    cbn [btoa base64ToUint8Array].
    rewrite !b64_value_char by assumption.
    rewrite (b64_char_not_pad _ R2), (b64_char_not_pad _ R3). cbn [andb].
    rewrite (IH Hrest). cbn [bind]. now rewrite E0, E1, E2.
Qed.

(** ** 16-bit samples and their bytes *)

Lemma ToInt16_is_int16 (x : number) : is_int16 (ToInt16 x).
Proof.
  unfold is_int16. destruct x as [q| |s]; cbn [ToInt16]; try lia.
  pose proof (Z.mod_pos_bound (truncate q) 65536 ltac:(lia)).
  destruct (Z.leb_spec 32768 (truncate q mod 65536)); lia.
Qed.

Lemma ToInt16_wrap (q : Q) : ToInt16 (Fin q) = wrap_int16 (truncate q).
Proof.
  unfold wrap_int16; cbn [ToInt16].
  destruct (Z.leb_spec 32768 (truncate q mod 65536));
    Z.div_mod_to_equations; lia.
Qed.

Lemma truncate_floor_ceiling (q : Q) : truncate q = truncate_toward_zero q.
Proof.
  unfold truncate, truncate_toward_zero, Qceiling, Qfloor, Qle_bool.
  destruct q as [a d]. cbn [Qnum Qden Qopp].
  rewrite Z.mul_1_r, Z.mul_0_l.
  destruct (Z.leb_spec 0 a).
  - apply Z.quot_div_nonneg; lia.
  - rewrite <- (Z.opp_involutive a) at 1. rewrite Z.quot_opp_l by lia.
    f_equal. apply Z.quot_div_nonneg; lia.
Qed.

Lemma truncate_error (x : Q) :
  within_one_step x (truncate (x * 32768) # 32768).
Proof.
  apply Qabs_Qle_condition.
  destruct x as [a d]. unfold truncate. cbn [Qmult Qnum Qden].
  rewrite Pos.mul_1_r.
  pose proof (Z.quot_rem' (a * 32768) (Z.pos d)) as E.
  pose proof (Z.rem_bound_abs (a * 32768) (Z.pos d) ltac:(lia)) as B.
  set (t := (a * 32768) ÷ Z.pos d) in *.
  set (r := Z.rem (a * 32768) (Z.pos d)) in *.
  unfold Qle, Qminus, Qplus, Qopp; cbn [Qnum Qden].
  rewrite !Pos2Z.inj_mul.
  split; nia.
Qed.

Lemma int16_bytes_are_bytes (k : Z) : Forall is_byte (int16_bytes k).
Proof.
  unfold int16_bytes, is_byte.
  repeat apply List.Forall_cons; try apply List.Forall_nil;
    Z.div_mod_to_equations; lia.
Qed.

Lemma Uint8Array_bytes (int16 : list Z) :
  Forall is_byte (Uint8Array_of_Int16Array int16).
Proof.
  induction int16 as [|k l IH]; cbn; [constructor|].
  pose proof (int16_bytes_are_bytes k) as Hk. unfold int16_bytes in Hk.
  apply Forall_cons in Hk as [H0 Hk]. apply Forall_cons in Hk as [H1 _].
  repeat (constructor; [assumption|]). exact IH.
Qed.

Lemma int16_of_bytes_int16_bytes (k : Z) :
  is_int16 k ->
  int16_of_bytes ((k mod 65536) mod 256) ((k mod 65536) / 256) = k.
Proof.
  unfold is_int16, int16_of_bytes. intros Hk.
  destruct (Z.leb_spec 32768
              ((k mod 65536) mod 256 + 256 * ((k mod 65536) / 256)));
    Z.div_mod_to_equations; lia.
Qed.

(** The Int16Array view of the bytes of an Int16Array is the array. *)
Lemma Int16Array_roundtrip (int16 : list Z) :
  Forall is_int16 int16 ->
  Int16Array_of_buffer (Uint8Array_of_Int16Array int16) = Ok int16.
Proof.
  induction 1 as [|k l Hk Hl IH]; [reflexivity|].
  cbn [Uint8Array_of_Int16Array flat_map int16_bytes app
       Int16Array_of_buffer].
  fold (Uint8Array_of_Int16Array l). rewrite IH. cbn [bind].
  now rewrite int16_of_bytes_int16_bytes.
Qed.

Lemma int16_of_samples_is_int16 (data : list number) :
  Forall is_int16 (int16_of_samples data).
Proof.
  unfold int16_of_samples. apply Forall_forall. intros k Hk.
  apply list_elem_of_In, in_map_iff in Hk as (x & <- & _).
  apply ToInt16_is_int16.
Qed.

(** The payload of [createPcmBlob] carries the stored 16-bit values. *)
Lemma payload_dataInt16 (data : list number) :
  dataInt16_of (Codec.data (createPcmBlob data)) = Ok (int16_of_samples data).
Proof.
  unfold dataInt16_of, createPcmBlob. cbn [Codec.data].
  rewrite base64_roundtrip by apply Uint8Array_bytes. cbn [bind].
  apply Int16Array_roundtrip, int16_of_samples_is_int16.
Qed.

(** Decoded samples are stored again as the 16-bit values they came from. *)
Lemma int16_of_dequantized (ks : list Z) :
  Forall is_int16 ks ->
  int16_of_samples (map Fin (dequantize ks)) = ks.
Proof.
  intros Hks. unfold int16_of_samples, dequantize. rewrite !map_map.
  induction Hks as [|k l Hk Hl IH]; [reflexivity|].
  cbn [map]. rewrite IH. f_equal.
  cbn [times32768]. rewrite ToInt16_wrap.
  unfold truncate, sample_of_int16. cbn [Qmult Qnum Qden].
  change (Z.pos (32768 * 1)) with 32768. rewrite Z.quot_mul by lia.
  unfold wrap_int16, is_int16 in *. Z.div_mod_to_equations; lia.
Qed.

(** Samples on the 16-bit grid pass through the codec unchanged. *)
Lemma codec_exact_on_grid (ks : list Z) :
  Forall is_int16 ks ->
  decode (Codec.data (createPcmBlob (map Fin (dequantize ks))))
  = (let! _ := createBuffer (length ks) in
     Ok {| channelData := dequantize ks |}).
Proof.
  intros Hks. unfold decode.
  now rewrite payload_dataInt16, int16_of_dequantized.
Qed.

(** The scenario of the specification: a frame of 4096 zero samples is sent
    as a payload that decodes to 4096 zero samples. *)
Example silence_roundtrip :
  decode (Codec.data (createPcmBlob (repeat (Fin 0) (Z.to_nat 4096))))
  = Ok {| channelData := repeat (0 # 32768)%Q (Z.to_nat 4096) |}.
Proof. vm_compute. reflexivity. Qed.

(** C3.  For every sequence [s] of samples in [-1, 1] whose scaled values
    [s*32768] truncate to 16-bit integers, the payload made by
    [createPcmBlob] decodes (base64, 16-bit little-endian view, division by
    32768) to the truncated scaled values over 32768: every decoded sample is
    within 1/32768 of the sample sent, and the 16-bit values themselves cross
    the wire unchanged, so sending the decoded samples again gives the same
    payload.  For a non-empty [s] the decode block of [onmessage] returns
    the buffer holding these samples. *)
Theorem C3_codec_roundtrip (s : list Q) :
  Forall (fun x => (-1 <= x <= 1)%Q) s ->
  Forall (fun x => is_int16 (truncate (x * 32768))) s ->
  exists dataInt16,
    dataInt16_of (Codec.data (createPcmBlob (map Fin s))) = Ok dataInt16 /\
    dataInt16 = map (fun x => truncate (x * 32768)) s /\
    Forall2 within_one_step s (dequantize dataInt16) /\
    createPcmBlob (map Fin (dequantize dataInt16))
    = createPcmBlob (map Fin s) /\
    (s <> [] ->
     decode (Codec.data (createPcmBlob (map Fin s)))
     = Ok {| channelData := dequantize dataInt16 |}).
Proof.
  intros _ Hrep.
  assert (E : int16_of_samples (map Fin s)
              = map (fun x => truncate (x * 32768)) s).
  { unfold int16_of_samples. rewrite map_map.
    induction Hrep as [|x l Hx Hl IH]; [reflexivity|].
    cbn [map]. rewrite IH. f_equal.
    cbn [times32768]. rewrite ToInt16_wrap.
    unfold wrap_int16, is_int16 in *. Z.div_mod_to_equations; lia. }
  exists (map (fun x => truncate (x * 32768)) s).
  split; [now rewrite payload_dataInt16, E|].
  split; [reflexivity|].
  split; [|split].
  - unfold dequantize. clear. induction s as [|x l IH]; constructor.
    + apply truncate_error.
    + exact IH.
  - unfold createPcmBlob. rewrite E, int16_of_dequantized; [reflexivity|].
    rewrite <- E. apply int16_of_samples_is_int16.
  - intros Hne. unfold decode. rewrite payload_dataInt16, E. cbn [bind].
    rewrite length_map. destruct s; [congruence|reflexivity].
Qed.

Lemma C3_codec_roundtrip_witness :
  exists dataInt16,
    dataInt16_of
      (Codec.data (createPcmBlob (map Fin [0; 1 # 2; -1; -1 # 3; 32767 # 32768]%Q)))
    = Ok dataInt16 /\
    dataInt16
    = map (fun x => truncate (x * 32768)) [0; 1 # 2; -1; -1 # 3; 32767 # 32768]%Q /\
    Forall2 within_one_step [0; 1 # 2; -1; -1 # 3; 32767 # 32768]%Q
      (dequantize dataInt16) /\
    createPcmBlob (map Fin (dequantize dataInt16))
    = createPcmBlob (map Fin [0; 1 # 2; -1; -1 # 3; 32767 # 32768]%Q) /\
    ([0; 1 # 2; -1; -1 # 3; 32767 # 32768]%Q <> [] ->
     decode
       (Codec.data (createPcmBlob (map Fin [0; 1 # 2; -1; -1 # 3; 32767 # 32768]%Q)))
     = Ok {| channelData := dequantize dataInt16 |}).
Proof.
  apply (C3_codec_roundtrip [0; 1 # 2; -1; -1 # 3; 32767 # 32768]%Q).
  - repeat apply List.Forall_cons; try apply List.Forall_nil;
      split; vm_compute; discriminate.
  - repeat apply List.Forall_cons; try apply List.Forall_nil;
      split; vm_compute; discriminate.
Defined.

(** C10.  For every input frame, [createPcmBlob] stores for each finite
    sample [s] the integer part of [s*32768] toward zero, reduced modulo 2^16
    into [-32768, 32767], and 0 for NaN and the infinities: one stored value
    per sample, in order, none clamped or left out.  The stored values are
    16-bit integers, and the payload is the base64 text of their bytes, from
    which the decoder's 16-bit view reads exactly these values back.  Nothing
    is clamped: 1.0 is stored as -32768, and samples outside [-1, 1] wrap. *)
Theorem C10_encode_truncates_and_wraps :
  (forall s : Q,
     ToInt16 (times32768 (Fin s))
     = wrap_int16 (truncate_toward_zero (s * 32768))) /\
  (forall data : list number,
     int16_of_samples data
     = map (fun x => match x with
                     | Fin s => wrap_int16 (truncate_toward_zero (s * 32768))
                     | NaN | Infinity _ => 0
                     end) data /\
     Forall is_int16 (int16_of_samples data) /\
     Codec.data (createPcmBlob data)
     = btoa (Uint8Array_of_Int16Array (int16_of_samples data)) /\
     Int16Array_of_buffer (Uint8Array_of_Int16Array (int16_of_samples data))
     = Ok (int16_of_samples data) /\
     dataInt16_of (Codec.data (createPcmBlob data))
     = Ok (map (fun x => match x with
                         | Fin s => wrap_int16 (truncate_toward_zero (s * 32768))
                         | NaN | Infinity _ => 0
                         end) data)) /\
  (forall samples : list Q,
     int16_of_samples (map Fin samples)
     = map (fun s => wrap_int16 (truncate_toward_zero (s * 32768))) samples /\
     length (int16_of_samples (map Fin samples)) = length samples) /\
  int16_of_samples [Fin 1] = [-32768] /\
  int16_of_samples [Fin (32767 # 32768); Fin (3 # 2); Fin (-3 # 2); Fin 2;
                    Fin (-1); Fin (-5 # 4); NaN; Infinity false]
  = [32767; -16384; 16384; 0; -32768; 24576; 0; 0].
Proof.
  assert (Hstore : forall data : list number,
             int16_of_samples data
             = map (fun x => match x with
                             | Fin s =>
                                 wrap_int16 (truncate_toward_zero (s * 32768))
                             | NaN | Infinity _ => 0
                             end) data).
  { intros data. unfold int16_of_samples. apply List.map_ext.
    intros [s| |b]; [|reflexivity|reflexivity]. cbn [times32768].
    now rewrite ToInt16_wrap, truncate_floor_ceiling. }
  split; [|split; [|split; [|split]]].
  - intros s. cbn [times32768].
    now rewrite ToInt16_wrap, truncate_floor_ceiling.
  - intros data. split; [|split; [|split; [|split]]].
    + apply Hstore.
    + apply int16_of_samples_is_int16.
    + reflexivity.
    + apply Int16Array_roundtrip, int16_of_samples_is_int16.
    + rewrite payload_dataInt16. f_equal. apply Hstore.
  - intros samples. split.
    + rewrite Hstore, List.map_map. reflexivity.
    + unfold int16_of_samples. now rewrite !length_map.
  - reflexivity.
  - reflexivity.
Qed.

(** ** Playback scheduler *)

Lemma Qltb_true (x y : Q) : Qltb x y = true <-> (x < y)%Q.
Proof.
  unfold Qltb. rewrite negb_true_iff, <- not_true_iff_false, Qle_bool_iff.
  split; [apply Qnot_le_lt | apply Qlt_not_le].
Qed.

Lemma Qltb_false (x y : Q) : Qltb x y = false <-> (y <= x)%Q.
Proof. unfold Qltb. now rewrite negb_false_iff, Qle_bool_iff. Qed.

(** The time at which the scheduling block starts a buffer. *)
Lemma scheduleBuffer_started (t : Q) (b : AudioBuffer) (st : State) :
  started (scheduleBuffer t b st)
  = started st ++
      [{| source := length (started st);
          when := if Qltb (nextStartTimeRef st) t then t
                  else nextStartTimeRef st;
          bufferDuration := duration b |}].
Proof. unfold scheduleBuffer. now destruct (Qltb (nextStartTimeRef st) t). Qed.

Lemma scheduleBuffer_next (t : Q) (b : AudioBuffer) (st : State) :
  nextStartTimeRef (scheduleBuffer t b st)
  = ((if Qltb (nextStartTimeRef st) t then t else nextStartTimeRef st)
     + duration b)%Q.
Proof. unfold scheduleBuffer. now destruct (Qltb (nextStartTimeRef st) t). Qed.

Lemma raised_not_in_past (next t : Q) :
  (t <= (if Qltb next t then t else next))%Q.
Proof.
  destruct (Qltb next t) eqn:E; [apply Qle_refl | now apply Qltb_false].
Qed.

Lemma duration_nonneg (b : AudioBuffer) : (0 <= duration b)%Q.
Proof. unfold duration, Qle. cbn [Qnum Qden]. lia. Qed.

(** From here on the scheduling block is used through the two equations
    above. *)
Opaque scheduleBuffer.

Lemma started_scheduleAll (arrivals : list (Q * AudioBuffer)) (st : State) :
  started (scheduleAll arrivals st) = started st ++ scheduled arrivals st.
Proof.
  unfold scheduled. revert st.
  induction arrivals as [|[t b] rest IH]; intros st; cbn [scheduleAll].
  - now rewrite drop_all, app_nil_r.
  - pose proof (IH (scheduleBuffer t b st)) as E.
    rewrite scheduleBuffer_started in E.
    remember (drop _ (started (scheduleAll rest (scheduleBuffer t b st))))
      as tail eqn:Etail in E.
    clear Etail. rewrite E, <- app_assoc. now rewrite drop_app_length.
Qed.

Lemma scheduled_cons (t : Q) (b : AudioBuffer)
    (rest : list (Q * AudioBuffer)) (st : State) :
  scheduled ((t, b) :: rest) st
  = {| source := length (started st);
       when := if Qltb (nextStartTimeRef st) t then t else nextStartTimeRef st;
       bufferDuration := duration b |}
    :: scheduled rest (scheduleBuffer t b st).
Proof.
  unfold scheduled at 1. cbn [scheduleAll].
  rewrite started_scheduleAll, scheduleBuffer_started, <- app_assoc.
  now rewrite drop_app_length.
Qed.

Lemma scheduled_length (arrivals : list (Q * AudioBuffer)) (st : State) :
  length (scheduled arrivals st) = length arrivals.
Proof.
  revert st. induction arrivals as [|[t b] rest IH]; intros st.
  - unfold scheduled. cbn [scheduleAll]. now rewrite drop_all.
  - rewrite scheduled_cons. cbn [length]. now rewrite IH.
Qed.

(** Every buffer of a run has its own duration and starts no earlier than
    the clock time of its arrival. *)
Lemma scheduled_each (arrivals : list (Q * AudioBuffer)) (st : State)
    (i : nat) (t : Q) (b : AudioBuffer) (s : Started) :
  arrivals !! i = Some (t, b) ->
  scheduled arrivals st !! i = Some s ->
  bufferDuration s = duration b /\ (t <= when s)%Q.
Proof.
  revert st i. induction arrivals as [|[t0 b0] rest IH]; intros st i Ha Hs.
  - discriminate.
  - rewrite scheduled_cons in Hs. destruct i as [|i]; simpl in Ha, Hs.
    + simplify_eq. cbn [when bufferDuration].
      split; [reflexivity | apply raised_not_in_past].
    + eapply IH; eassumption.
Qed.

(** Each buffer after the first starts where the one before it ends, unless
    the clock has passed that time; then it starts at the clock. *)
Lemma scheduled_consecutive (arrivals : list (Q * AudioBuffer)) (st : State)
    (i : nat) (t : Q) (b : AudioBuffer) (s s' : Started) :
  scheduled arrivals st !! i = Some s ->
  arrivals !! S i = Some (t, b) ->
  scheduled arrivals st !! S i = Some s' ->
  when s' = (if Qltb (when s + bufferDuration s) t then t
             else when s + bufferDuration s)%Q.
Proof.
  revert st i. induction arrivals as [|[t0 b0] rest IH]; intros st i Hs Ha Hs'.
  - discriminate.
  - rewrite scheduled_cons in Hs, Hs'.
    destruct i as [|i]; simpl in Hs, Ha, Hs'.
    + destruct rest as [|[t1 b1] rest']; [discriminate|].
      rewrite scheduled_cons in Hs'. simpl in Ha, Hs'. simplify_eq.
      simpl. now rewrite scheduleBuffer_next.
    + eapply IH; eassumption.
Qed.

(** C1.  The scheduling block starts each decoded buffer at [NextStartTime],
    raised first to the clock time when it is behind, and then advances
    [NextStartTime] by the duration of the buffer.  So in a run of buffers,
    each buffer that arrives no later than the end of the one before it
    starts exactly at that end (no gap, no overlap); a buffer that arrives
    later starts at the clock time of its arrival; and no buffer starts
    before the clock time of its arrival. *)
Theorem C1_gap_free_scheduling (st : State)
    (arrivals : list (Q * AudioBuffer)) :
  (forall t b,
     exists start,
       started (scheduleBuffer t b st)
       = started st ++
           [{| source := length (started st); when := start;
               bufferDuration := duration b |}] /\
       nextStartTimeRef (scheduleBuffer t b st) = (start + duration b)%Q /\
       ((nextStartTimeRef st < t)%Q -> start = t) /\
       ((t <= nextStartTimeRef st)%Q -> start = nextStartTimeRef st) /\
       (t <= start)%Q) /\
  length (scheduled arrivals st) = length arrivals /\
  (forall i t b s,
     arrivals !! i = Some (t, b) ->
     scheduled arrivals st !! i = Some s ->
     bufferDuration s = duration b /\ (t <= when s)%Q) /\
  (forall i t b s s',
     scheduled arrivals st !! i = Some s ->
     arrivals !! S i = Some (t, b) ->
     scheduled arrivals st !! S i = Some s' ->
     ((t <= when s + bufferDuration s)%Q ->
      when s' = (when s + bufferDuration s)%Q) /\
     ((when s + bufferDuration s < t)%Q -> when s' = t)).
Proof.
  split; [|split; [|split]].
  - intros t b.
    exists (if Qltb (nextStartTimeRef st) t then t else nextStartTimeRef st).
    split; [apply scheduleBuffer_started|].
    split; [apply scheduleBuffer_next|].
    split; [|split].
    + intros H. apply Qltb_true in H. now rewrite H.
    + intros H. apply Qltb_false in H. now rewrite H.
    + apply raised_not_in_past.
  - apply scheduled_length.
  - intros i t b s. apply scheduled_each.
  - intros i t b s s' Hs Ha Hs'.
    rewrite (scheduled_consecutive arrivals st i t b s s' Hs Ha Hs').
    split; intros H.
    + apply Qltb_false in H. now rewrite H.
    + apply Qltb_true in H. now rewrite H.
Qed.

Transparent scheduleBuffer.

Lemma C1_gap_free_scheduling_witness :
  scheduled Scenario.two_chunks Scenario.connected
  = [Scenario.first_start; Scenario.second_start] /\
  when Scenario.second_start
  = (when Scenario.first_start + bufferDuration Scenario.first_start)%Q.
Proof.
  split; [reflexivity|].
  destruct (C1_gap_free_scheduling Scenario.connected Scenario.two_chunks)
    as (_ & _ & _ & Hnext).
  apply (Hnext 0%nat (1 # 10)%Q (Scenario.tone 3)
           Scenario.first_start Scenario.second_start);
    try reflexivity.
  vm_compute. discriminate.
Defined.

(** The scenario of the specification: two buffers of 1.0 s and 0.5 s handled
    at the same clock time; the second starts one second after the first. *)
Example back_to_back :
  map when (scheduled [(0%Q, Scenario.tone (Z.to_nat 24000));
                       (0%Q, Scenario.tone (Z.to_nat 12000))]
              Scenario.connected)
  = [0; 0 + (24000 # 24000)]%Q.
Proof. vm_compute. reflexivity. Qed.

(** ** Interruption *)

Lemma handleInterruption_again (st : State) :
  sourcesRef st = [] -> nextStartTimeRef st = 0%Q ->
  handleInterruption st = addLog "Interrupted" st.
Proof.
  destruct st. cbn. intros -> ->.
  unfold handleInterruption, addLog. cbn. now rewrite app_nil_r.
Qed.

(** C2, as the code has it.  The interruption block stops every source of
    the active set (and nothing else), empties the set and resets
    [NextStartTime] to zero; a message that only carries the flag runs just
    this block.  With an empty set nothing is stopped and the set stays
    empty; the scheduler state is then unchanged when [NextStartTime] was
    already zero (the handler only logs).  With [N] active sources, [N] stop
    calls are made and the set is left empty. *)
Theorem C2_interruption (st : State) :
  stopped (handleInterruption st) = stopped st ++ sourcesRef st /\
  sourcesRef (handleInterruption st) = [] /\
  nextStartTimeRef (handleInterruption st) = 0%Q /\
  length (stopped (handleInterruption st))
  = (length (stopped st) + length (sourcesRef st))%nat /\
  (forall t,
     onmessage t {| inlineData := None; interrupted := true |} st
     = (handleInterruption st, None)) /\
  (sourcesRef st = [] ->
   stopped (handleInterruption st) = stopped st /\
   sourcesRef (handleInterruption st) = sourcesRef st /\
   (nextStartTimeRef st = 0%Q ->
    scheduler_state (handleInterruption st) = scheduler_state st /\
    handleInterruption st = addLog "Interrupted" st)).
Proof.
  split; [reflexivity|]. split; [reflexivity|]. split; [reflexivity|].
  split; [cbn; now rewrite length_app|].
  split; [reflexivity|].
  intros Hempty. split; [cbn; now rewrite Hempty, app_nil_r|].
  split; [now rewrite Hempty|].
  intros Hzero. split.
  - unfold scheduler_state. cbn. now rewrite Hempty, Hzero.
  - now apply handleInterruption_again.
Qed.

Lemma C2_interruption_witness :
  stopped (handleInterruption initial) = stopped initial /\
  sourcesRef (handleInterruption initial) = sourcesRef initial /\
  (nextStartTimeRef initial = 0%Q ->
   scheduler_state (handleInterruption initial) = scheduler_state initial /\
   handleInterruption initial = addLog "Interrupted" initial).
Proof.
  apply (C2_interruption initial). reflexivity.
Defined.

(** The claim C2 fails where it says that an interruption with an empty
    active set leaves the scheduler state unchanged: after a chunk has played
    to its end the set is empty and [NextStartTime] is the end of the chunk;
    the interruption resets it to zero. *)
Lemma C2_empty_set_not_unchanged :
  sourcesRef Scenario.played = [] /\
  scheduler_state Scenario.played = ((0 + (2 # 24000))%Q, []) /\
  scheduler_state (handleInterruption Scenario.played) = (0%Q, []) /\
  scheduler_state (handleInterruption Scenario.played)
  <> scheduler_state Scenario.played.
Proof.
  split; [reflexivity|]. split; [reflexivity|]. split; [reflexivity|].
  vm_compute. discriminate.
Qed.

(** ** The message handler *)

(** What a message does to the state: at most one buffer is scheduled, then
    the interruption block runs if the flag is set; or the decode block
    throws and the state is left as found. *)
Lemma onmessage_cases (t : Q) (msg : LiveServerMessage) (st : State) :
  (exists e, onmessage t msg st = (st, Some e)) \/
  (exists st1,
     (st1 = st \/ exists b, st1 = scheduleBuffer t b st) /\
     onmessage t msg st
     = (if interrupted msg then handleInterruption st1 else st1, None)).
Proof.
  unfold onmessage, handleAudio.
  destruct (inlineData msg) as [base64Audio|].
  - destruct (is_empty base64Audio).
    + right. exists st. split; [now left | reflexivity].
    + destruct (decode base64Audio) as [b|e]; cbn [bind].
      * right. exists (scheduleBuffer t b st).
        split; [right; now exists b | reflexivity].
      * left. now exists e.
  - right. exists st. split; [now left | reflexivity].
Qed.

(** C8, as the code has it.  No buffer is started before the clock time at
    which its message is handled: the scheduling block raises
    [NextStartTime] to the clock before it uses it, and leaves it at or
    after the clock.  The interruption block sets [NextStartTime] to zero
    whatever the clock is; the scheduling block that follows raises it
    again, so the next buffer still starts at the clock time or later. *)
Theorem C8_never_scheduled_in_the_past (st : State) (t : Q) :
  (forall b,
     exists s,
       started (scheduleBuffer t b st) = started st ++ [s] /\
       (t <= when s)%Q /\
       (t <= nextStartTimeRef (scheduleBuffer t b st))%Q) /\
  nextStartTimeRef (handleInterruption st) = 0%Q /\
  (forall b,
     exists s,
       started (scheduleBuffer t b (handleInterruption st))
       = started st ++ [s] /\
       (t <= when s)%Q /\
       ((0 < t)%Q -> when s = t)) /\
  (forall msg s,
     s ∈ drop (length (started st)) (started (fst (onmessage t msg st))) ->
     (t <= when s)%Q).
Proof.
  split; [|split; [reflexivity|split]].
  - intros b. eexists. split; [apply scheduleBuffer_started|].
    cbn [when]. split; [apply raised_not_in_past|].
    rewrite scheduleBuffer_next.
    apply Qle_trans with
      ((if Qltb (nextStartTimeRef st) t then t else nextStartTimeRef st) + 0)%Q.
    + rewrite Qplus_0_r. apply raised_not_in_past.
    + apply Qplus_le_r, duration_nonneg.
  - intros b. eexists.
    split; [rewrite scheduleBuffer_started; reflexivity|].
    cbn [when]. split; [apply raised_not_in_past|].
    intros Ht. change (nextStartTimeRef (handleInterruption st)) with 0%Q.
    apply Qltb_true in Ht. now rewrite Ht.
  - intros msg s Hs.
    destruct (onmessage_cases t msg st) as [[e E]|(st1 & Hst1 & E)];
      rewrite E in Hs; cbn [fst] in Hs.
    + rewrite drop_all in Hs. now apply elem_of_nil in Hs.
    + assert (Hst : started (if interrupted msg then handleInterruption st1
                             else st1) = started st1)
        by now destruct (interrupted msg).
      rewrite Hst in Hs. destruct Hst1 as [->|[b ->]].
      * rewrite drop_all in Hs. now apply elem_of_nil in Hs.
      * rewrite scheduleBuffer_started, drop_app_length in Hs.
        apply list_elem_of_singleton in Hs as ->. cbn [when].
        apply raised_not_in_past.
Qed.

Lemma C8_never_scheduled_in_the_past_witness :
  exists s,
    started (scheduleBuffer 5 (Scenario.tone 3)
               (handleInterruption Scenario.playing))
    = started Scenario.playing ++ [s] /\
    when s = 5%Q.
Proof.
  destruct (C8_never_scheduled_in_the_past Scenario.playing 5)
    as (_ & _ & Hafter & _).
  destruct (Hafter (Scenario.tone 3)) as (s & Hs & _ & Hw).
  exists s. split; [exact Hs|]. apply Hw. reflexivity.
Defined.

(** The claim C8 fails for the interruption block: handled at clock time 5,
    it sets [NextStartTime] to zero, below the clock. *)
Lemma C8_interruption_below_clock :
  let st' := fst (onmessage 5 Scenario.interruption Scenario.playing) in
  nextStartTimeRef st' = 0%Q /\ (nextStartTimeRef st' < 5)%Q /\
  ~ (5 <= nextStartTimeRef st')%Q.
Proof.
  split; [reflexivity|]. split; [reflexivity|].
  apply Qlt_not_le. reflexivity.
Qed.

(** ** Decode failures *)

Lemma Int16Array_odd (bytes : list Z) :
  Nat.odd (length bytes) = true ->
  Int16Array_of_buffer bytes = Throw RangeError.
Proof.
  revert bytes. fix IH 1. intros [|lo [|hi rest]] Hodd.
  - discriminate.
  - reflexivity.
  - cbn [Int16Array_of_buffer]. now rewrite (IH rest Hodd).
Qed.

Lemma decode_failures (base64Audio : string) (e : Exn) :
  base64ToUint8Array base64Audio = Throw e \/
  (exists bytes,
     base64ToUint8Array base64Audio = Ok bytes /\
     Nat.odd (length bytes) = true /\ e = RangeError) ->
  decode base64Audio = Throw e.
Proof.
  unfold decode, dataInt16_of. intros [E|(bytes & E & Hodd & ->)]; rewrite E.
  - reflexivity.
  - cbn [bind]. now rewrite Int16Array_odd.
Qed.

(** C9, as the code has it.  When the payload of a message is not base64, or
    decodes to an odd number of bytes, the handler ends with the exception
    of the decode block (it has no try/catch).  It throws before its first
    assignment: no source is started, an [interrupted] flag of the same
    message is not processed, and the state is the one found, so a message
    handled afterwards is handled as if the bad one had not arrived. *)
Theorem C9_decode_failure (st : State) (t : Q) (msg : LiveServerMessage)
    (base64Audio : string) (e : Exn) :
  inlineData msg = Some base64Audio ->
  is_empty base64Audio = false ->
  base64ToUint8Array base64Audio = Throw e \/
  (exists bytes,
     base64ToUint8Array base64Audio = Ok bytes /\
     Nat.odd (length bytes) = true /\ e = RangeError) ->
  onmessage t msg st = (st, Some e) /\
  (forall t' msg',
     onmessage t' msg' (fst (onmessage t msg st)) = onmessage t' msg' st).
Proof.
  intros Hdata Hne Hbad. apply decode_failures in Hbad.
  assert (E : onmessage t msg st = (st, Some e)).
  { unfold onmessage, handleAudio. now rewrite Hdata, Hne, Hbad. }
  split; [exact E|]. intros t' msg'. now rewrite E.
Qed.

Lemma C9_decode_failure_witness :
  onmessage 3 Scenario.odd_chunk Scenario.playing
  = (Scenario.playing, Some RangeError) /\
  (forall t' msg',
     onmessage t' msg'
       (fst (onmessage 3 Scenario.odd_chunk Scenario.playing))
     = onmessage t' msg' Scenario.playing).
Proof.
  apply (C9_decode_failure Scenario.playing 3 Scenario.odd_chunk "AA==").
  - reflexivity.
  - reflexivity.
  - right. exists [0]. split; [reflexivity|]. split; reflexivity.
Defined.

(** The claim C9 fails where it says that the handler does not throw: a
    payload of one byte makes [new Int16Array] throw, and a payload that is
    not base64 makes the decoder throw, the interruption carried by the same
    message being lost. *)
Lemma C9_handler_throws :
  snd (onmessage 3 Scenario.odd_chunk Scenario.playing) = Some RangeError /\
  onmessage 3 Scenario.garbled_chunk Scenario.playing
  = (Scenario.playing, Some InvalidCharacterError) /\
  sourcesRef (fst (onmessage 3 Scenario.garbled_chunk Scenario.playing))
  = [0%nat].
Proof. repeat split. Qed.

(** ** Capture and the session promise *)

Lemma onaudioprocess_chained (cl : Closure) (inputData : list number)
    (st : State) (p : nat) :
  captured_isMuted cl = false ->
  sessionPromiseRef st = Some p ->
  onaudioprocess cl inputData st
  = promise_then p (SendRealtimeInput (createPcmBlob inputData)) st.
Proof. unfold onaudioprocess. now intros -> ->. Qed.

Lemma onaudioprocess_dropped (cl : Closure) (inputData : list number)
    (st : State) :
  captured_isMuted cl = true \/ sessionPromiseRef st = None ->
  onaudioprocess cl inputData st = st.
Proof.
  unfold onaudioprocess. intros [->| ->]; [reflexivity|].
  now destruct (captured_isMuted cl).
Qed.

Lemma captureAll_pending (cl : Closure) (frames : list (list number))
    (st : State) (p : nat) (rs : list Reaction) :
  captured_isMuted cl = false ->
  sessionPromiseRef st = Some p ->
  promises st !! p = Some (Pending rs) ->
  sessionPromiseRef (captureAll cl frames st) = Some p /\
  promises (captureAll cl frames st) !! p = Some (Pending (rs ++ sends frames)).
Proof.
  intros Hcl. revert st rs.
  induction frames as [|f frames IH]; intros st rs Hp Hrs; cbn [captureAll].
  - unfold sends. cbn [map]. now rewrite app_nil_r.
  - rewrite (onaudioprocess_chained cl f st p Hcl Hp).
    destruct (IH (promise_then p (SendRealtimeInput (createPcmBlob f)) st)
                (rs ++ [SendRealtimeInput (createPcmBlob f)])) as [IH1 IH2].
    + exact Hp.
    + unfold promise_then. cbn [promises set_promises].
      now rewrite list_lookup_alter_eq, Hrs.
    + split; [exact IH1|]. rewrite IH2. unfold sends. cbn [map].
      now rewrite <- app_assoc.
Qed.

Lemma settled_app (rs rs' : list Reaction) :
  settled (rs ++ rs') = fold_left (fun s r => react r s) rs' (settled rs).
Proof. unfold settled. apply fold_left_app. Qed.

Lemma sends_inputs (frames : list (list number)) (s : LiveSessionObj) :
  realtimeInputs (fold_left (fun s r => react r s) (sends frames) s)
  = realtimeInputs s ++ map createPcmBlob frames /\
  closeCalls (fold_left (fun s r => react r s) (sends frames) s)
  = closeCalls s.
Proof.
  unfold sends. revert s.
  induction frames as [|f frames IH]; intros s; cbn [map fold_left].
  - now rewrite app_nil_r.
  - destruct (IH (react (SendRealtimeInput (createPcmBlob f)) s)) as [E1 E2].
    rewrite E1, E2. cbn [react realtimeInputs closeCalls].
    now rewrite <- app_assoc.
Qed.

Lemma session_of_fulfilled (p : nat) (st : State) (rs : list Reaction) :
  promises st !! p = Some (Pending rs) ->
  session_of p (connect_fulfilled p st) = Some (settled rs).
Proof.
  intros Hrs. unfold session_of, connect_fulfilled.
  cbn [promises set_promises]. now rewrite list_lookup_alter_eq, Hrs.
Qed.

(** C4, as the code has it.  While the connection is being made (the
    session promise is pending), each frame the unmuted capture callback
    gets is encoded and chained on the promise, in capture order; when the
    promise is fulfilled the session receives them all, in that order,
    after whatever was chained before.  A frame is dropped when the
    component holds no session promise. *)
Theorem C4_frames_while_connecting (st : State) (cl : Closure) (p : nat)
    (rs : list Reaction) (frames : list (list number)) :
  captured_isMuted cl = false ->
  sessionPromiseRef st = Some p ->
  promises st !! p = Some (Pending rs) ->
  promises (captureAll cl frames st) !! p
  = Some (Pending (rs ++ sends frames)) /\
  (exists s,
     session_of p (connect_fulfilled p (captureAll cl frames st)) = Some s /\
     realtimeInputs s
     = realtimeInputs (settled rs) ++ map createPcmBlob frames) /\
  (forall st0 inputData,
     sessionPromiseRef st0 = None ->
     onaudioprocess cl inputData st0 = st0).
Proof.
  intros Hcl Hp Hrs.
  destruct (captureAll_pending cl frames st p rs Hcl Hp Hrs) as [_ Hq].
  split; [exact Hq|]. split.
  - exists (settled (rs ++ sends frames)).
    split; [now apply session_of_fulfilled|].
    rewrite settled_app. apply sends_inputs.
  - intros st0 inputData H0. apply onaudioprocess_dropped. now right.
Qed.

Lemma C4_frames_while_connecting_witness :
  promises
    (captureAll Scenario.first_render [Scenario.frame; [NaN]]
       Scenario.connecting) !! 0%nat
  = Some (Pending ([] ++ sends [Scenario.frame; [NaN]])) /\
  (exists s,
     session_of 0
       (connect_fulfilled 0
          (captureAll Scenario.first_render [Scenario.frame; [NaN]]
             Scenario.connecting)) = Some s /\
     realtimeInputs s
     = realtimeInputs (settled [])
       ++ map createPcmBlob [Scenario.frame; [NaN]]) /\
  (forall st0 inputData,
     sessionPromiseRef st0 = None ->
     onaudioprocess Scenario.first_render inputData st0 = st0).
Proof.
  apply (C4_frames_while_connecting Scenario.connecting Scenario.first_render
           0 [] [Scenario.frame; [NaN]]); reflexivity.
Defined.

(** The claim C4 fails: a frame captured while the connection is being made
    is not dropped; it is sent once the connection is there. *)
Lemma C4_frame_delivered_after_open :
  promises Scenario.connecting !! 0%nat = Some (Pending []) /\
  session_of 0
    (connect_fulfilled 0
       (onopen (audioprocess 0 Scenario.frame Scenario.connecting)))
  = Some {| realtimeInputs := [createPcmBlob Scenario.frame];
            closeCalls := 0 |}.
Proof. split; reflexivity. Qed.

(** ** Teardown *)

Lemma close_context_twice (l : list AudioContextState) (i j : nat) :
  alter (λ _, Closed) i
    (alter (λ _, Closed) j (alter (λ _, Closed) i (alter (λ _, Closed) j l)))
  = alter (λ _, Closed) i (alter (λ _, Closed) j l).
Proof.
  apply list_eq. intros k. rewrite !list_lookup_alter.
  repeat case_decide; subst; destruct (l !! _); reflexivity.
Qed.

Lemma close_context_again (l : list AudioContextState) (i : nat) :
  alter (λ _, Closed) i (alter (λ _, Closed) i l) = alter (λ _, Closed) i l.
Proof.
  apply list_eq. intros k. rewrite !list_lookup_alter.
  repeat case_decide; subst; destruct (l !! _); reflexivity.
Qed.

(** A field of the state left by [stopSession], by cases on the three refs
    it tests. *)
Ltac stop_cases st :=
  unfold stopSession;
  destruct (sessionPromiseRef st), (audioContextRef st) eqn:Ea,
    (inputContextRef st) eqn:Ei; cbn; rewrite ?Ea, ?Ei; cbn;
    rewrite ?Ei; reflexivity.

Lemma stopSession_promises (st : State) :
  promises (stopSession st)
  = match sessionPromiseRef st with
    | Some p => alter (then_ CloseSession) p (promises st)
    | None => promises st
    end.
Proof.
  stop_cases st.
Qed.

Lemma stopSession_contexts (st : State) :
  contexts (stopSession st)
  = let closed1 :=
      match audioContextRef st with
      | Some c => alter (λ _, Closed) c (contexts st)
      | None => contexts st
      end in
    match inputContextRef st with
    | Some c => alter (λ _, Closed) c closed1
    | None => closed1
    end.
Proof.
  stop_cases st.
Qed.

Lemma stopSession_idempotent (st : State) :
  stopSession (stopSession st) = stopSession st.
Proof.
  destruct st as [c m s l ao io sr sp n so cs ps pr ms sd sx].
  destruct sp as [p|], ao as [a|], io as [i|];
    cbv -[alter list_alter then_]; f_equal;
    auto using close_context_twice, close_context_again.
Qed.

(** C5, as the code has it.  [stopSession] chains [close()] on the session
    promise it holds, closes the two audio contexts it holds, clears the
    connected flag, puts the status back and forgets the session and its
    promise.  It can be called in any state (no statement of it can throw),
    and calling it twice in a row leaves the state that one call leaves.
    The microphone stream is kept: the number of streams acquired is not
    changed. *)
Theorem C5_stop_teardown (st : State) :
  isConnected (stopSession st) = false /\
  status (stopSession st) = "Ready to connect"%string /\
  sessionRef (stopSession st) = None /\
  sessionPromiseRef (stopSession st) = None /\
  (forall p,
     sessionPromiseRef st = Some p ->
     promises (stopSession st) !! p
     = then_ CloseSession <$> promises st !! p) /\
  (forall c,
     audioContextRef st = Some c \/ inputContextRef st = Some c ->
     is_Some (contexts st !! c) ->
     contexts (stopSession st) !! c = Some Closed) /\
  streams (stopSession st) = streams st /\
  stopSession (stopSession st) = stopSession st.
Proof.
  split; [reflexivity|]. split; [reflexivity|]. split; [reflexivity|].
  split; [reflexivity|]. split; [|split; [|split]].
  - intros p Hp. rewrite stopSession_promises, Hp.
    apply list_lookup_alter_eq.
  - intros c Hc [x Hx]. rewrite stopSession_contexts. cbn zeta.
    destruct Hc as [Hc|Hc]; rewrite Hc.
    + destruct (inputContextRef st) as [i|];
        rewrite !list_lookup_alter; repeat case_decide; subst;
        rewrite ?Hx; (reflexivity || congruence).
    + destruct (audioContextRef st) as [a|];
        rewrite !list_lookup_alter; repeat case_decide; subst;
        rewrite ?Hx; (reflexivity || congruence).
  - stop_cases st.
  - apply stopSession_idempotent.
Qed.

Lemma C5_stop_teardown_witness :
  promises (stopSession Scenario.playing) !! 0%nat
  = then_ CloseSession <$> promises Scenario.playing !! 0%nat /\
  contexts (stopSession Scenario.playing) !! 1%nat = Some Closed.
Proof.
  destruct (C5_stop_teardown Scenario.playing)
    as (_ & _ & _ & _ & Hp & Hc & _).
  split.
  - apply Hp. reflexivity.
  - apply Hc; [right; reflexivity | eexists; reflexivity].
Defined.

(** The claim C5 fails: after a chunk has been scheduled, [stopSession]
    leaves [NextStartTime] and the active set as they are, stops no source,
    and the microphone stream acquired by [startSession] is still there. *)
Lemma C5_stop_resets_nothing_of_the_scheduler :
  scheduler_state (stopSession Scenario.playing)
  = ((0 + (2 # 24000))%Q, [0%nat]) /\
  nextStartTimeRef (stopSession Scenario.playing) <> 0%Q /\
  sourcesRef (stopSession Scenario.playing) <> [] /\
  stopped (stopSession Scenario.playing) = [] /\
  streams (stopSession Scenario.playing) = 1%nat.
Proof.
  split; [reflexivity|]. split; [vm_compute; discriminate|].
  split; [vm_compute; discriminate|]. split; reflexivity.
Qed.

(** ** A connection that opens after End Call *)




(** ** The mute gate *)

(** The mute button changes [isMuted] and nothing else. *)
Lemma toggleMute_only_isMuted (st : State) :
  isMuted (toggleMute st) = negb (isMuted st) /\
  promises (toggleMute st) = promises st /\
  sessionPromiseRef (toggleMute st) = sessionPromiseRef st /\
  isConnected (toggleMute st) = isConnected st /\
  status (toggleMute st) = status st /\
  scheduler_state (toggleMute st) = scheduler_state st.
Proof. repeat split. Qed.

(** The capture callback does not see the mute button: what it does depends
    on the render it closed over, not on the current [isMuted]. *)
Lemma onaudioprocess_toggleMute (cl : Closure) (inputData : list number)
    (st : State) :
  onaudioprocess cl inputData (toggleMute st)
  = toggleMute (onaudioprocess cl inputData st).
Proof.
  unfold onaudioprocess. destruct (captured_isMuted cl); [reflexivity|].
  cbn [sessionPromiseRef toggleMute set_isMuted].
  now destruct (sessionPromiseRef st).
Qed.

(** The capture callback installed by Start Conversation closes over the
    render on screen at the click. *)
Lemma clickStart_processor (st : State) :
  processors (clickStart true Granted st) = processors st ++ [render st].
Proof. reflexivity. Qed.

(** C7, evaluated where the code breaks it.  In a call started unmuted, the
    user mutes; the next capture callback still encodes its frame and sends
    it.  In a call started from a render in which the microphone was muted,
    the user unmutes; the capture callback still drops its frame. *)
Theorem C7_mute_gate_is_stale :
  isMuted Scenario.muted = true /\
  session_of 0 Scenario.muted
  = Some {| realtimeInputs := []; closeCalls := 0 |} /\
  session_of 0 (audioprocess 0 Scenario.frame Scenario.muted)
  = Some {| realtimeInputs := [createPcmBlob Scenario.frame];
            closeCalls := 0 |} /\
  isMuted Scenario.unmuted = false /\
  session_of 1 Scenario.unmuted
  = Some {| realtimeInputs := []; closeCalls := 0 |} /\
  audioprocess 1 Scenario.frame Scenario.unmuted = Scenario.unmuted.
Proof. repeat split. Qed.

(** * Further properties of the component *)

Import Run.

(** ** The session log *)

Lemma take_app_take {A} (n : nat) (l k : list A) :
  take n (l ++ take n k) = take n (l ++ k).
Proof.
  rewrite !take_app, take_take. do 2 f_equal. lia.
Qed.

(** Once something has been logged, the log shows the five most recent
    messages, newest first, whatever it held before. *)
Theorem addLogs_five_most_recent (msgs : list string) (msg : string)
    (st : State) :
  logs (addLogs (msgs ++ [msg]) st) = take 5 (msg :: rev msgs ++ logs st) /\
  (length (logs (addLogs (msgs ++ [msg]) st)) <= 5)%nat.
Proof.
  assert (E : logs (addLogs (msgs ++ [msg]) st)
              = take 5 (msg :: rev msgs ++ logs st)).
  { revert st. induction msgs as [|m msgs IH]; intros st; [reflexivity|].
    change (addLogs ((m :: msgs) ++ [msg]) st)
      with (addLogs (msgs ++ [msg]) (addLog m st)).
    rewrite IH.
    change (logs (addLog m st)) with (take 5 (m :: logs st)).
    change (msg :: rev msgs ++ take 5 (m :: logs st))
      with ((msg :: rev msgs) ++ take 5 (m :: logs st)).
    rewrite take_app_take. cbn [rev]. now rewrite <- app_assoc. }
  split; [exact E|]. rewrite E, length_take. lia.
Qed.

(** ** What holds after every run *)

Lemma run_snoc (events : list Event) (e : Event) (st : State) :
  run (events ++ [e]) st = handle e (run events st).
Proof. unfold run. now rewrite fold_left_app. Qed.

(** A property kept by every event holds in every reachable state. *)
Lemma reachable_ind (P : State -> Prop) :
  P initial ->
  (forall e st, P st -> P (handle e st)) ->
  forall st, reachable st -> P st.
Proof.
  intros Hinit Hstep st [events ->].
  induction events as [|e events IH] using rev_ind; [exact Hinit|].
  rewrite run_snoc. now apply Hstep.
Qed.

(** Handling a message touches the log and the scheduler only. *)
Lemma onmessage_frame (t : Q) (msg : LiveServerMessage) (st : State) :
  let st' := fst (onmessage t msg st) in
  isConnected st' = isConnected st /\ isMuted st' = isMuted st /\
  status st' = status st /\
  audioContextRef st' = audioContextRef st /\
  inputContextRef st' = inputContextRef st /\
  sessionRef st' = sessionRef st /\
  sessionPromiseRef st' = sessionPromiseRef st /\
  contexts st' = contexts st /\ promises st' = promises st /\
  processors st' = processors st /\ streams st' = streams st.
Proof.
  cbn zeta.
  destruct (onmessage_cases t msg st) as [[e ->]|(st1 & Hst1 & ->)];
    cbn [fst]; [repeat split|].
  destruct (interrupted msg), Hst1 as [->|[b ->]]; repeat split;
    unfold scheduleBuffer; destruct (Qltb _ _); reflexivity.
Qed.

(** Cases on what an event tests. *)
Ltac handler_cases :=
  unfold audioprocess, onaudioprocess, stopSession, startSession_enter,
    startSession_resume;
  repeat match goal with
    | |- context [match ?x with _ => _ end] => destruct x eqn:?
    end; cbn.

Lemma handle_refs (e : Event) (st : State) :
  sessionRef st = None /\ refs_valid st ->
  sessionRef (handle e st) = None /\ refs_valid (handle e st).
Proof.
  unfold refs_valid. intros (Hs & Ha & Hi & Hp).
  destruct e; cbn [handle];
    try (destruct (onmessage_frame currentTime message st)
           as (_ & _ & _ & -> & -> & -> & -> & -> & -> & _); now auto).
  all: handler_cases.
  all: rewrite ?length_app, ?length_alter; cbn.
  all: try (split; [assumption || reflexivity|]).
  all: repeat split; intros x Hx; simplify_eq; try lia.
  all: try (first [apply Ha in Hx | apply Hi in Hx | apply Hp in Hx]; lia).
  all: match goal with
       | H : _ = Some ?x |- (?x < _)%nat =>
           first [apply Ha; exact H | apply Hi; exact H | apply Hp; exact H
                 | now apply Hp]
       end.
Qed.

(** In every state the component can reach, [sessionRef] is empty (nothing
    ever assigns a session to it) and the other refs hold audio contexts and
    a session promise that were created. *)
Theorem reachable_refs (st : State) :
  reachable st -> sessionRef st = None /\ refs_valid st.
Proof.
  apply (reachable_ind (fun st => sessionRef st = None /\ refs_valid st)).
  - split; [reflexivity|]. repeat split; intros x Hx; discriminate.
  - apply handle_refs.
Qed.

(** ** The active set *)

Lemma scheduleBuffer_sources (t : Q) (b : AudioBuffer) (st : State) :
  sourcesRef (scheduleBuffer t b st)
  = Set_add (length (started st)) (sourcesRef st) /\
  stopped (scheduleBuffer t b st) = stopped st.
Proof. unfold scheduleBuffer. now destruct (Qltb _ _). Qed.

Lemma Set_add_fresh (x : nat) (s : list nat) :
  x ∉ s -> Set_add x s = s ++ [x].
Proof. intros Hx. unfold Set_add. now rewrite bool_decide_eq_false_2. Qed.

Lemma scheduleBuffer_valid (t : Q) (b : AudioBuffer) (st : State) :
  sources_valid st -> sources_valid (scheduleBuffer t b st).
Proof.
  intros (Hnd & Hns & Hsrc & Hstop).
  assert (Hfresh : length (started st) ∉ sourcesRef st).
  { intros Hin. apply Hsrc in Hin as [Hlt _]. lia. }
  unfold sources_valid.
  destruct (scheduleBuffer_sources t b st) as [-> ->].
  rewrite scheduleBuffer_started, length_app, (Set_add_fresh _ _ Hfresh).
  cbn [length]. repeat split.
  - apply NoDup_app. repeat split; [assumption| |apply NoDup_singleton].
    intros x Hx ->%list_elem_of_singleton. now apply Hfresh.
  - assumption.
  - apply elem_of_app in H as [H| ->%list_elem_of_singleton]; [|lia].
    apply Hsrc in H. lia.
  - apply elem_of_app in H as [H| ->%list_elem_of_singleton].
    + now apply Hsrc in H.
    + intros Hin. apply Hstop in Hin. lia.
  - intros src Hin. apply Hstop in Hin. lia.
Qed.

Lemma handleInterruption_valid (st : State) :
  sources_valid st -> sources_valid (handleInterruption st).
Proof.
  intros (Hnd & Hns & Hsrc & Hstop). unfold sources_valid. cbn.
  repeat split.
  - apply NoDup_nil_2.
  - apply NoDup_app. repeat split; [assumption| |assumption].
    intros x Hx Hin. now apply Hsrc in Hin.
  - now apply elem_of_nil in H.
  - now apply elem_of_nil in H.
  - intros src [Hin|Hin]%elem_of_app; [now apply Hstop|].
    now apply Hsrc in Hin.
Qed.

Lemma onended_valid (src : nat) (st : State) :
  sources_valid st -> sources_valid (onended src st).
Proof.
  intros (Hnd & Hns & Hsrc & Hstop). unfold sources_valid, onended, Set_delete.
  cbn. repeat split.
  - now apply NoDup_filter.
  - assumption.
  - apply list_elem_of_filter in H as [_ H]. now apply Hsrc in H.
  - apply list_elem_of_filter in H as [_ H]. now apply Hsrc in H.
  - assumption.
Qed.

(** Events other than a message and the end of a source leave the scheduler
    and the calls on the sources as they are. *)
Lemma handle_scheduler_frame (e : Event) (st : State) :
  (forall t msg, e <> OnMessage t msg) ->
  (forall src, e <> OnEnded src) ->
  scheduler_state (handle e st) = scheduler_state st /\
  started (handle e st) = started st /\
  stopped (handle e st) = stopped st.
Proof.
  intros Hm He. unfold scheduler_state.
  destruct e; cbn [handle];
    try (exfalso; now eapply Hm); try (exfalso; now eapply He).
  all: handler_cases; repeat split.
Qed.

Lemma handle_valid (e : Event) (st : State) :
  sources_valid st -> sources_valid (handle e st).
Proof.
  intros Hv.
  destruct (match e with OnMessage _ _ | OnEnded _ => true | _ => false end)
    eqn:He.
  - destruct e; try discriminate; cbn [handle].
    + destruct (onmessage_cases currentTime message st)
        as [[x ->]|(st1 & Hst1 & ->)]; cbn [fst]; [assumption|].
      assert (sources_valid st1)
        by (destruct Hst1 as [->|[b ->]];
            [assumption | now apply scheduleBuffer_valid]).
      destruct (interrupted message);
        [now apply handleInterruption_valid | assumption].
    + now apply onended_valid.
  - destruct (handle_scheduler_frame e st) as (Hs & Hst & Hsp).
    + intros t msg ->. discriminate.
    + intros src ->. discriminate.
    + unfold scheduler_state in Hs. injection Hs as _ Hsrc.
      unfold sources_valid. now rewrite Hsrc, Hst, Hsp.
Qed.

Lemma reachable_sources_valid (st : State) :
  reachable st -> sources_valid st.
Proof.
  apply (reachable_ind sources_valid).
  - unfold sources_valid. cbn.
    repeat split; try apply NoDup_nil_2;
      try (intros src Hin; now apply elem_of_nil in Hin);
      exfalso; eapply elem_of_nil; eassumption.
  - apply handle_valid.
Qed.

(** In every state the component can reach, the active set holds each
    source at most once, only sources that were started and have not been
    stopped; and no source is stopped twice or before it was started. *)
Theorem reachable_sources (st : State) :
  reachable st -> sources_valid st.
Proof.
  intros [events ->].
  induction events as [|e events IH] using rev_ind.
  - apply reachable_sources_valid. now exists [].
  - rewrite run_snoc. now apply handle_valid.
Qed.

Lemma reachable_refs_witness :
  sessionRef (run a_call initial) = None /\ refs_valid (run a_call initial).
Proof. apply reachable_refs. exists a_call. reflexivity. Defined.

Lemma reachable_sources_witness : sources_valid (run a_call initial).
Proof. apply reachable_sources. exists a_call. reflexivity. Defined.

(** ** The microphone *)

Lemma handle_streams (e : Event) (st : State) :
  (streams st <= streams (handle e st))%nat /\
  (streams st = length (processors st) /\ length (promises st) = streams st ->
   streams (handle e st) = length (processors (handle e st)) /\
   length (promises (handle e st)) = streams (handle e st)).
Proof.
  destruct e; cbn [handle];
    try (destruct (onmessage_frame currentTime message st)
           as (_ & _ & _ & _ & _ & _ & _ & _ & -> & -> & ->); now auto).
  all: handler_cases; rewrite ?length_app, ?length_alter; cbn.
  all: split; [lia|]; intros [H1 H2]; split; lia.
Qed.

(** No event releases a microphone stream: along every run the number of
    streams acquired never goes down, and in every reachable state it is the
    number of capture callbacks installed and of connections requested. *)
Theorem streams_never_released (st : State) (events : list Event) :
  reachable st ->
  (streams st <= streams (run events st))%nat /\
  streams st = length (processors st) /\
  length (promises st) = streams st.
Proof.
  intros Hst. split.
  - induction events as [|e events IH] using rev_ind; [reflexivity|].
    rewrite run_snoc. etransitivity; [exact IH|]. apply handle_streams.
  - revert st Hst.
    apply (reachable_ind
             (fun st => streams st = length (processors st) /\
                        length (promises st) = streams st)).
    + split; reflexivity.
    + intros e st. apply handle_streams.
Qed.

Lemma streams_never_released_witness :
  (streams (run [StartEnter true; StartResume (render initial) Granted] initial)
     <= streams (run [OnOpen; StopSession; OnClose]
                   (run [StartEnter true; StartResume (render initial) Granted]
                      initial)))%nat /\
  streams (run [StartEnter true; StartResume (render initial) Granted] initial)
  = length (processors
              (run [StartEnter true; StartResume (render initial) Granted]
                 initial)) /\
  length (promises
            (run [StartEnter true; StartResume (render initial) Granted]
               initial))
  = streams (run [StartEnter true; StartResume (render initial) Granted]
               initial).
Proof.
  apply streams_never_released.
  exists [StartEnter true; StartResume (render initial) Granted]. reflexivity.
Defined.

(** ** Starting *)

Lemma lookup_snoc2 {A} (l : list A) (x y : A) :
  ((l ++ [x]) ++ [y]) !! length l = Some x /\
  ((l ++ [x]) ++ [y]) !! S (length l) = Some y /\
  (forall i, (i < length l)%nat -> ((l ++ [x]) ++ [y]) !! i = l !! i).
Proof.
  repeat split.
  - rewrite lookup_app_l by (rewrite length_app; cbn; lia).
    now rewrite list_lookup_middle.
  - rewrite lookup_app_r by (rewrite length_app; cbn; lia).
    rewrite length_app. cbn [length].
    now replace (S (length l) - (length l + 1))%nat with 0%nat by lia.
  - intros i Hi. rewrite !lookup_app_l; rewrite ?length_app; cbn; try lia.
    reflexivity.
Qed.

(** A start that fails.  Without a key (missing or empty) the status reports
    the error of [getLiveClient] and nothing else changes.  With the
    microphone refused, the two audio contexts have already been created:
    they are running and the refs hold them, while no stream, callback or
    session promise was added; [stopSession] then closes these two contexts
    and leaves the older ones as they were. *)
Theorem failed_start (cl : Closure) (st : State) :
  (forall API_KEY media,
     API_KEY = None \/ API_KEY = Some ""%string ->
     exists message,
       Service.getLiveClient API_KEY = Service.Error message /\
       startSession cl (Service.has_client API_KEY) media st
       = set_status ("Connection Failed: " ++ message) st) /\
  (forall message,
     let st' := startSession cl true (Denied message) st in
     status st' = ("Connection Failed: " ++ message)%string /\
     promises st' = promises st /\
     sessionPromiseRef st' = sessionPromiseRef st /\
     processors st' = processors st /\
     streams st' = streams st /\
     contexts st' = (contexts st ++ [Running]) ++ [Running] /\
     audioContextRef st' = Some (length (contexts st)) /\
     inputContextRef st' = Some (S (length (contexts st))) /\
     contexts (stopSession st') !! length (contexts st) = Some Closed /\
     contexts (stopSession st') !! S (length (contexts st)) = Some Closed /\
     (forall c, (c < length (contexts st))%nat ->
        contexts (stopSession st') !! c = contexts st !! c)).
Proof.
  split.
  - intros API_KEY media [-> | ->]; eexists; split; reflexivity.
  - intros message. cbn zeta.
    assert (E : contexts (startSession cl true (Denied message) st)
                = (contexts st ++ [Running]) ++ [Running]).
    { reflexivity. }
    assert (Ea : audioContextRef (startSession cl true (Denied message) st)
                 = Some (length (contexts st))) by reflexivity.
    assert (Ei : inputContextRef (startSession cl true (Denied message) st)
                 = Some (S (length (contexts st)))).
    { unfold startSession. cbn. rewrite length_app. cbn.
      now rewrite Nat.add_1_r. }
    destruct (lookup_snoc2 (contexts st) Running Running) as (L0 & L1 & Lold).
    repeat split; try exact E; try exact Ei.
    all: try intros c Hc.
    all: rewrite stopSession_contexts, Ea, Ei, E; cbn zeta.
    all: rewrite !list_lookup_alter; repeat case_decide; try lia.
    all: rewrite ?L0, ?L1, ?Lold by lia; reflexivity.
Qed.

Lemma failed_start_witness :
  (exists message,
     Service.getLiveClient (Some ""%string) = Service.Error message /\
     startSession Scenario.first_render (Service.has_client (Some ""%string))
       Granted initial
     = set_status ("Connection Failed: " ++ message) initial) /\
  contexts
    (stopSession
       (startSession Scenario.first_render true (Denied "NotAllowedError")
          initial)) !! 1%nat
  = Some Closed.
Proof.
  destruct (failed_start Scenario.first_render initial) as [H1 H2]. split.
  - apply H1. now right.
  - destruct (H2 "NotAllowedError"%string)
      as (_ & _ & _ & _ & _ & _ & _ & _ & _ & H & _).
    exact H.
Defined.

Lemma lookup_app_plus {A} (l k : list A) (i : nat) :
  (l ++ k) !! (length l + i)%nat = k !! i.
Proof.
  rewrite lookup_app_r by lia. f_equal. lia.
Qed.

(** Start Conversation clicked twice before the connection opens (the button
    stays on screen until [onopen]).  The refs then hold the objects of the
    second start only: End Call closes the second pair of audio contexts and
    chains [close()] on the second promise; the first pair stays running,
    the first promise has nothing chained, so the first session, once
    connected, is never closed.  Both microphone streams remain. *)
Theorem double_start_leak (st : State) :
  let st2 := clickStart true Granted (clickStart true Granted st) in
  let n := length (contexts st) in
  let k := length (promises st) in
  contexts (stopSession st2) !! n = Some Running /\
  contexts (stopSession st2) !! (n + 1)%nat = Some Running /\
  contexts (stopSession st2) !! (n + 2)%nat = Some Closed /\
  contexts (stopSession st2) !! (n + 3)%nat = Some Closed /\
  promises (stopSession st2) !! k = Some (Pending []) /\
  promises (stopSession st2) !! (k + 1)%nat = Some (Pending [CloseSession]) /\
  session_of k (connect_fulfilled k (stopSession st2)) = Some newSession /\
  streams (stopSession st2) = S (S (streams st)) /\
  stopSession (stopSession st2) = stopSession st2.
Proof.
  cbn zeta.
  set (st2 := clickStart true Granted (clickStart true Granted st)).
  assert (Ec : contexts st2
               = contexts st ++ [Running; Running; Running; Running]).
  { subst st2. cbn. now rewrite <- !app_assoc. }
  assert (Ep : promises st2 = promises st ++ [Pending []; Pending []]).
  { subst st2. cbn. now rewrite <- !app_assoc. }
  assert (Ea : audioContextRef st2 = Some (length (contexts st) + 2)%nat).
  { subst st2. cbn. rewrite !length_app. cbn. f_equal. lia. }
  assert (Ei : inputContextRef st2 = Some (length (contexts st) + 3)%nat).
  { subst st2. cbn. rewrite !length_app. cbn. f_equal. lia. }
  assert (Es : sessionPromiseRef st2 = Some (length (promises st) + 1)%nat).
  { subst st2. cbn. rewrite !length_app. cbn. f_equal. }
  assert (Hc : forall i,
             contexts (stopSession st2) !! (length (contexts st) + i)%nat
             = [Running; Running; Closed; Closed] !! i).
  { intros i. rewrite stopSession_contexts, Ea, Ei, Ec. cbn zeta.
    rewrite !list_lookup_alter, !lookup_app_plus.
    repeat case_decide; destruct i as [|[|[|[|i]]]]; try lia; reflexivity. }
  assert (Hp : forall i,
             promises (stopSession st2) !! (length (promises st) + i)%nat
             = [Pending []; Pending [CloseSession]] !! i).
  { intros i. rewrite stopSession_promises, Es, Ep.
    rewrite !list_lookup_alter, !lookup_app_plus.
    repeat case_decide; destruct i as [|[|i]]; try lia; reflexivity. }
  pose proof (Hc 0%nat) as Hc0. rewrite Nat.add_0_r in Hc0.
  pose proof (Hp 0%nat) as Hp0. rewrite Nat.add_0_r in Hp0.
  split; [exact Hc0|].
  split; [apply Hc|]. split; [apply Hc|]. split; [apply Hc|].
  split; [exact Hp0|]. split; [apply Hp|].
  split.
  - unfold session_of, connect_fulfilled. cbn [promises set_promises].
    now rewrite list_lookup_alter_eq, Hp0.
  - split; [reflexivity | apply stopSession_idempotent].
Qed.

(** ** End Call and playback *)

Lemma stopSession_scheduleBuffer (t : Q) (b : AudioBuffer) (st : State) :
  stopSession (scheduleBuffer t b st) = scheduleBuffer t b (stopSession st).
Proof.
  destruct st as [c m s l ao io sr sp n so cs ps pr ms sd sx].
  destruct sp, ao, io; unfold scheduleBuffer, stopSession; cbn;
    destruct (Qltb n t); reflexivity.
Qed.

Lemma stopSession_handleInterruption (st : State) :
  stopSession (handleInterruption st) = handleInterruption (stopSession st).
Proof.
  destruct st as [c m s l ao io sr sp n so cs ps pr ms sd sx].
  destruct sp, ao, io; reflexivity.
Qed.

(** End Call ends capture, not playback.  [stopSession] leaves the
    scheduler, the sources started and the stop calls as they are, and a
    message handled after it is decoded and scheduled exactly as before it
    (the two commute).  Every capture callback that fires after it drops its
    frame. *)
Theorem stop_ends_capture_not_playback (st : State) :
  scheduler_state (stopSession st) = scheduler_state st /\
  started (stopSession st) = started st /\
  stopped (stopSession st) = stopped st /\
  (forall t msg,
     onmessage t msg (stopSession st)
     = (stopSession (fst (onmessage t msg st)), snd (onmessage t msg st))) /\
  (forall cl inputData,
     onaudioprocess cl inputData (stopSession st) = stopSession st) /\
  (forall node inputData,
     audioprocess node inputData (stopSession st) = stopSession st).
Proof.
  destruct (handle_scheduler_frame StopSession st) as (H1 & H2 & H3);
    try discriminate.
  split; [exact H1|]. split; [exact H2|]. split; [exact H3|].
  split; [|split].
  - intros t msg. unfold onmessage, handleAudio.
    destruct (inlineData msg) as [base64Audio|].
    + destruct (is_empty base64Audio).
      * cbn [fst snd]. destruct (interrupted msg);
          now rewrite ?stopSession_handleInterruption.
      * destruct (decode base64Audio) as [b|e]; cbn [bind fst snd];
          [|reflexivity].
        destruct (interrupted msg);
          now rewrite ?stopSession_handleInterruption,
            ?stopSession_scheduleBuffer.
    + cbn [fst snd]. destruct (interrupted msg);
        now rewrite ?stopSession_handleInterruption.
  - intros cl inputData. apply onaudioprocess_dropped. now right.
  - intros node inputData. unfold audioprocess.
    destruct (processors (stopSession st) !! node); [|reflexivity].
    apply onaudioprocess_dropped. now right.
Qed.

(** A new call inherits the schedule of the last one.  Neither End Call nor
    Start Conversation touches [NextStartTime] or the active set, so the
    first buffer of the new call, handled when the clock of the new audio
    context is still below the old [NextStartTime], is started at the old
    [NextStartTime]. *)
Theorem restart_keeps_NextStartTime (st : State) (apiKey : bool)
    (media : UserMedia) (t : Q) (b : AudioBuffer) :
  (t <= nextStartTimeRef st)%Q ->
  scheduler_state (clickStart apiKey media (stopSession st))
  = scheduler_state st /\
  started (scheduleBuffer t b (clickStart apiKey media (stopSession st)))
  = started st ++
      [{| source := length (started st); when := nextStartTimeRef st;
          bufferDuration := duration b |}].
Proof.
  intros Ht.
  assert (E : scheduler_state (clickStart apiKey media (stopSession st))
              = scheduler_state st /\
              started (clickStart apiKey media (stopSession st)) = started st).
  { unfold clickStart, startSession.
    destruct (handle_scheduler_frame StopSession st) as (H1 & H2 & _);
      try discriminate. cbn [handle] in H1, H2.
    destruct (handle_scheduler_frame (StartEnter apiKey) (stopSession st))
      as (H3 & H4 & _); try discriminate. cbn [handle] in H3, H4.
    destruct (startSession_enter apiKey (stopSession st)) as [st1 suspended].
    cbn [fst] in H3, H4. destruct suspended.
    - destruct (handle_scheduler_frame
                  (StartResume (render (stopSession st)) media) st1)
        as (H5 & H6 & _); try discriminate. cbn [handle] in H5, H6.
      split; congruence.
    - split; congruence. }
  destruct E as [E1 E2]. split; [exact E1|].
  rewrite scheduleBuffer_started, E2.
  unfold scheduler_state in E1. injection E1 as -> _.
  apply Qltb_false in Ht. now rewrite Ht.
Qed.

Lemma restart_keeps_NextStartTime_witness :
  scheduler_state (clickStart true Granted (stopSession Scenario.playing))
  = scheduler_state Scenario.playing /\
  started (scheduleBuffer 0 (Scenario.tone 3)
             (clickStart true Granted (stopSession Scenario.playing)))
  = started Scenario.playing ++
      [{| source := length (started Scenario.playing);
          when := nextStartTimeRef Scenario.playing;
          bufferDuration := duration (Scenario.tone 3) |}].
Proof.
  apply restart_keeps_NextStartTime. vm_compute. discriminate.
Defined.

(** ** Decoded buffers *)

Lemma b64_value_range (c : ascii) (v : Z) :
  b64_value c = Some v -> 0 <= v < 64.
Proof.
  unfold b64_value. set (n := Z.of_N (N_of_ascii c)).
  repeat match goal with
    | |- context [if ?b then _ else _] => destruct b eqn:?
    end; intros H; simplify_eq; lia.
Qed.

(** Strings four characters at a time, the way the decoder consumes them. *)
Lemma string_ind4 (P : string -> Prop) :
  P EmptyString ->
  (forall c0, P (String c0 EmptyString)) ->
  (forall c0 c1, P (String c0 (String c1 EmptyString))) ->
  (forall c0 c1 c2, P (String c0 (String c1 (String c2 EmptyString)))) ->
  (forall c0 c1 c2 c3 rest,
     P rest -> P (String c0 (String c1 (String c2 (String c3 rest))))) ->
  forall s, P s.
Proof.
  intros H0 H1 H2 H3 H4. fix IH 1.
  intros [|c0 [|c1 [|c2 [|c3 rest]]]];
    [exact H0 | exact (H1 c0) | exact (H2 c0 c1) | exact (H3 c0 c1 c2)
    | exact (H4 c0 c1 c2 c3 rest (IH rest))].
Qed.

(** Lists two elements at a time, the way the 16-bit view reads bytes. *)
Lemma list_ind2 {A} (P : list A -> Prop) :
  P [] -> (forall a, P [a]) ->
  (forall a b rest, P rest -> P (a :: b :: rest)) ->
  forall l, P l.
Proof.
  intros H0 H1 H2. fix IH 1.
  intros [|a [|b rest]];
    [exact H0 | exact (H1 a) | exact (H2 a b rest (IH rest))].
Qed.

Lemma base64ToUint8Array_bytes (s : string) (bytes : list Z) :
  base64ToUint8Array s = Ok bytes -> Forall is_byte bytes.
Proof.
  revert bytes.
  induction s as [|c0|c0 c1|c0 c1 c2|c0 c1 c2 c3 rest IH] using string_ind4;
    intros bytes; cbn [base64ToUint8Array]; try discriminate.
  - intros [= <-]. constructor.
  - destruct (b64_value c0) as [v0|] eqn:E0; [|discriminate].
    destruct (b64_value c1) as [v1|] eqn:E1; [|discriminate].
    apply b64_value_range in E0, E1.
    destruct (is_pad c2 && is_pad c3 && is_empty rest).
    { intros [= <-]. repeat constructor; unfold is_byte;
        Z.div_mod_to_equations; lia. }
    destruct (b64_value c2) as [v2|] eqn:E2; [|discriminate].
    apply b64_value_range in E2.
    destruct (is_pad c3 && is_empty rest).
    { intros [= <-]. repeat constructor; unfold is_byte;
        Z.div_mod_to_equations; lia. }
    destruct (b64_value c3) as [v3|] eqn:E3; [|discriminate].
    apply b64_value_range in E3.
    destruct (base64ToUint8Array rest) as [bs|e] eqn:Er; [|discriminate].
    cbn [bind]. intros [= <-].
    repeat (constructor; [unfold is_byte; Z.div_mod_to_equations; lia|]).
    now apply IH.
Qed.

Lemma Int16Array_of_bytes (bytes int16 : list Z) :
  Forall is_byte bytes ->
  Int16Array_of_buffer bytes = Ok int16 ->
  Forall is_int16 int16 /\ length bytes = (2 * length int16)%nat.
Proof.
  revert int16. induction bytes as [|lo|lo hi rest IH] using list_ind2;
    intros int16 Hb; cbn [Int16Array_of_buffer]; try discriminate.
  - intros [= <-]. split; [constructor | reflexivity].
  - apply Forall_cons in Hb as [Hlo Hb]. apply Forall_cons in Hb as [Hhi Hb].
    destruct (Int16Array_of_buffer rest) as [ks|e] eqn:Ek; [|discriminate].
    cbn [bind]. intros [= <-].
    destruct (IH ks Hb eq_refl) as [IH1 IH2]. split.
    + constructor; [|exact IH1].
      unfold is_int16, int16_of_bytes, is_byte in *.
      destruct (Z.leb_spec 32768 (lo + 256 * hi)); lia.
    + cbn [length]. lia.
Qed.

Lemma sample_of_int16_range (k : Z) :
  is_int16 k -> (-1 <= sample_of_int16 k)%Q /\ (sample_of_int16 k < 1)%Q.
Proof.
  unfold is_int16, sample_of_int16, Qle, Qlt. cbn [Qnum Qden]. lia.
Qed.

Lemma dequantize_range (ks : list Z) :
  Forall is_int16 ks ->
  Forall (fun x => (-1 <= x)%Q /\ (x < 1)%Q) (dequantize ks).
Proof.
  induction 1 as [|x l Hx Hl IH]; cbn [dequantize map]; [constructor|].
  constructor; [exact (sample_of_int16_range x Hx) | exact IH].
Qed.

Lemma decoded_buffer_positive (base64Audio : string) (buffer : AudioBuffer) :
  decode base64Audio = Ok buffer ->
  channelData buffer <> [] /\ (0 < duration buffer)%Q.
Proof.
  unfold decode.
  destruct (dataInt16_of base64Audio) as [[|k ks]|e]; try discriminate.
  cbn [bind createBuffer length]. intros [= <-].
  split; [discriminate|]. unfold duration, Qlt. cbn. lia.
Qed.

(** Every buffer the decode block produces has at least one frame, hence a
    positive duration; it has one frame for every two bytes of the payload,
    and every sample of it lies in [-1, 1). *)
Theorem decoded_buffer_in_range (base64Audio : string) (buffer : AudioBuffer) :
  decode base64Audio = Ok buffer ->
  channelData buffer <> [] /\
  (0 < duration buffer)%Q /\
  Forall (fun x => (-1 <= x)%Q /\ (x < 1)%Q) (channelData buffer) /\
  exists bytes,
    base64ToUint8Array base64Audio = Ok bytes /\
    length bytes = (2 * length (channelData buffer))%nat.
Proof.
  unfold decode, dataInt16_of.
  destruct (base64ToUint8Array base64Audio) as [bytes|e] eqn:Eb;
    [|discriminate]. cbn [bind].
  destruct (Int16Array_of_buffer bytes) as [ks|e] eqn:Ek; [|discriminate].
  cbn [bind].
  destruct (Int16Array_of_bytes bytes ks) as [Hks Hlen];
    [now apply base64ToUint8Array_bytes in Eb | exact Ek |].
  destruct ks as [|k ks]; [discriminate|]. cbn [createBuffer length bind].
  intros [= <-]. cbn [channelData]. split; [discriminate|]. split; [|split].
  - unfold duration, Qlt. cbn. lia.
  - exact (dequantize_range (k :: ks) Hks).
  - exists bytes. split; [reflexivity|]. rewrite Hlen.
    change (sample_of_int16 k :: dequantize ks) with (dequantize (k :: ks)).
    unfold dequantize. now rewrite length_map.
Qed.

Lemma decoded_buffer_in_range_witness :
  channelData {| channelData := [0 # 32768; -32768 # 32768]%Q |} <> [] /\
  (0 < duration {| channelData := [0 # 32768; -32768 # 32768]%Q |})%Q /\
  Forall (fun x => (-1 <= x)%Q /\ (x < 1)%Q)
    (channelData {| channelData := [0 # 32768; -32768 # 32768]%Q |}) /\
  exists bytes,
    base64ToUint8Array "AAAAgA==" = Ok bytes /\
    length bytes
    = (2 * length
             (channelData {| channelData := [0 # 32768; -32768 # 32768]%Q |}))%nat.
Proof.
  apply (decoded_buffer_in_range "AAAAgA=="). reflexivity.
Defined.

(** An audio message that is not an interruption moves the schedule
    forward: its buffer is started, and [NextStartTime] ends up strictly
    after both its old value and the clock. *)
Theorem audio_message_advances (st : State) (t : Q) (msg : LiveServerMessage)
    (base64Audio : string) (buffer : AudioBuffer) :
  inlineData msg = Some base64Audio ->
  decode base64Audio = Ok buffer ->
  interrupted msg = false ->
  onmessage t msg st = (scheduleBuffer t buffer st, None) /\
  (nextStartTimeRef st < nextStartTimeRef (fst (onmessage t msg st)))%Q /\
  (t < nextStartTimeRef (fst (onmessage t msg st)))%Q.
Proof.
  intros Hdata Hdec Hint.
  assert (E : onmessage t msg st = (scheduleBuffer t buffer st, None)).
  { unfold onmessage, handleAudio. rewrite Hdata, Hint.
    destruct base64Audio; [discriminate|]. cbn [is_empty].
    now rewrite Hdec. }
  split; [exact E|]. rewrite E. cbn [fst]. rewrite scheduleBuffer_next.
  destruct (decoded_buffer_positive base64Audio buffer Hdec) as [_ Hpos].
  set (start := if Qltb (nextStartTimeRef st) t then t
                else nextStartTimeRef st).
  assert (Hstart : (start < start + duration buffer)%Q).
  { rewrite <- (Qplus_0_r start) at 1. now apply Qplus_lt_r. }
  split.
  - eapply Qle_lt_trans; [|exact Hstart]. subst start.
    destruct (Qltb (nextStartTimeRef st) t) eqn:El; [|apply Qle_refl].
    apply Qltb_true in El. now apply Qlt_le_weak.
  - eapply Qle_lt_trans; [|exact Hstart]. apply raised_not_in_past.
Qed.

Lemma audio_message_advances_witness :
  onmessage (1 # 2) chunk Scenario.playing
  = (scheduleBuffer (1 # 2) {| channelData := [0 # 32768; 0 # 32768]%Q |}
       Scenario.playing, None) /\
  (nextStartTimeRef Scenario.playing
   < nextStartTimeRef (fst (onmessage (1 # 2) chunk Scenario.playing)))%Q /\
  ((1 # 2) < nextStartTimeRef (fst (onmessage (1 # 2) chunk Scenario.playing)))%Q.
Proof.
  apply (audio_message_advances Scenario.playing (1 # 2) chunk "AAAAAA==");
    reflexivity.
Defined.

(** A chunk that arrives with the interruption flag is started and stopped
    by the same handler run: its source is started, then stopped together
    with the sources of the active set, the set is left empty and
    [NextStartTime] is zero. *)
Theorem interrupted_chunk_is_silenced (st : State) (t : Q)
    (msg : LiveServerMessage) (base64Audio : string) (buffer : AudioBuffer) :
  inlineData msg = Some base64Audio ->
  decode base64Audio = Ok buffer ->
  interrupted msg = true ->
  sources_valid st ->
  onmessage t msg st = (handleInterruption (scheduleBuffer t buffer st), None) /\
  (exists s,
     started (fst (onmessage t msg st)) = started st ++ [s] /\
     source s = length (started st)) /\
  stopped (fst (onmessage t msg st))
  = stopped st ++ sourcesRef st ++ [length (started st)] /\
  sourcesRef (fst (onmessage t msg st)) = [] /\
  nextStartTimeRef (fst (onmessage t msg st)) = 0%Q.
Proof.
  intros Hdata Hdec Hint (Hnd & _ & Hsrc & _).
  assert (E : onmessage t msg st
              = (handleInterruption (scheduleBuffer t buffer st), None)).
  { unfold onmessage, handleAudio. rewrite Hdata, Hint.
    destruct base64Audio; [discriminate|]. cbn [is_empty].
    now rewrite Hdec. }
  split; [exact E|]. rewrite E. cbn [fst].
  split; [|split; [|split; reflexivity]].
  - eexists. split; [apply scheduleBuffer_started | reflexivity].
  - change (stopped (handleInterruption (scheduleBuffer t buffer st)))
      with (stopped (scheduleBuffer t buffer st)
            ++ sourcesRef (scheduleBuffer t buffer st)).
    destruct (scheduleBuffer_sources t buffer st) as [-> ->].
    rewrite Set_add_fresh; [reflexivity|].
    intros Hin. apply Hsrc in Hin as [Hlt _]. lia.
Qed.

Lemma interrupted_chunk_is_silenced_witness :
  stopped
    (fst (onmessage (1 # 2)
            {| inlineData := Some "AAAAAA=="%string; interrupted := true |}
            (run a_call initial)))
  = stopped (run a_call initial) ++ sourcesRef (run a_call initial)
    ++ [length (started (run a_call initial))].
Proof.
  apply (interrupted_chunk_is_silenced (run a_call initial) (1 # 2)
           {| inlineData := Some "AAAAAA=="%string; interrupted := true |}
           "AAAAAA==" {| channelData := [0 # 32768; 0 # 32768]%Q |}).
  - reflexivity.
  - reflexivity.
  - reflexivity.
  - apply reachable_sources_valid. exists a_call. reflexivity.
Defined.

(** ** Sources that end *)

Lemma Set_delete_absent (x : nat) (s : list nat) :
  x ∉ s -> Set_delete x s = s.
Proof.
  unfold Set_delete. induction s as [|y s IH]; intros Hx; [reflexivity|].
  apply not_elem_of_cons in Hx as [Hne Hx].
  rewrite filter_cons_True by congruence. now rewrite IH.
Qed.

Lemma Set_delete_present (x : nat) (s : list nat) :
  NoDup s -> x ∈ s -> S (length (Set_delete x s)) = length s.
Proof.
  unfold Set_delete. induction 1 as [|y s Hy Hnd IH]; intros Hx.
  - now apply elem_of_nil in Hx.
  - destruct (decide (y = x)) as [->|Hne].
    + rewrite filter_cons_False by (intros H; now apply H).
      fold (Set_delete x s). now rewrite Set_delete_absent.
    + rewrite filter_cons_True by exact Hne. cbn [length]. f_equal.
      apply IH. apply elem_of_cons in Hx as [->|Hx]; [congruence|exact Hx].
Qed.

Lemma set_sourcesRef_same (st : State) : set_sourcesRef (sourcesRef st) st = st.
Proof. now destruct st. Qed.

(** When a source ends it leaves the active set, and only it: the set
    loses exactly one element, and a later interruption stops the others
    but not the ended source.  The end of a source that is not in the set
    (it was interrupted, or has ended before) changes nothing. *)
Theorem ended_source_leaves_the_set (st : State) (src : nat) :
  (src ∉ sourcesRef (onended src st)) /\
  stopped (handleInterruption (onended src st))
  = stopped st ++ Set_delete src (sourcesRef st) /\
  (forall other, other <> src ->
     (other ∈ sourcesRef (onended src st) <-> other ∈ sourcesRef st)) /\
  (NoDup (sourcesRef st) -> src ∈ sourcesRef st ->
   S (length (sourcesRef (onended src st))) = length (sourcesRef st)) /\
  (src ∉ sourcesRef st -> onended src st = st) /\
  onended src (handleInterruption st) = handleInterruption st.
Proof.
  split; [|split; [reflexivity|split; [|split; [|split]]]].
  - cbn. unfold Set_delete. rewrite list_elem_of_filter. intros [H _].
    now apply H.
  - intros other Hne. cbn. unfold Set_delete. rewrite list_elem_of_filter.
    tauto.
  - intros Hnd Hin. cbn. now apply Set_delete_present.
  - intros Hout. unfold onended. rewrite Set_delete_absent by exact Hout.
    apply set_sourcesRef_same.
  - reflexivity.
Qed.

Lemma ended_source_leaves_the_set_witness :
  S (length (sourcesRef (onended 0 Scenario.playing)))
  = length (sourcesRef Scenario.playing) /\
  onended 0 (onended 0 Scenario.playing) = onended 0 Scenario.playing.
Proof.
  destruct (ended_source_leaves_the_set Scenario.playing 0)
    as (_ & _ & _ & Hlen & _).
  destruct (ended_source_leaves_the_set (onended 0 Scenario.playing) 0)
    as (Hout & _ & _ & _ & Hsame & _).
  split.
  - apply Hlen; [apply NoDup_singleton | apply list_elem_of_singleton;
                                          reflexivity].
  - apply Hsame. exact Hout.
Defined.

(** ** Capture once the connection is there, or has failed *)

Lemma set_promises_same (st : State) : set_promises (promises st) st = st.
Proof. now destruct st. Qed.

Lemma captureAll_fulfilled (cl : Closure) (frames : list (list number))
    (st : State) (p : nat) (s : LiveSessionObj) :
  captured_isMuted cl = false ->
  sessionPromiseRef st = Some p ->
  promises st !! p = Some (Fulfilled s) ->
  promises (captureAll cl frames st) !! p
  = Some (Fulfilled (fold_left (fun s r => react r s) (sends frames) s)).
Proof.
  intros Hcl. revert st s.
  induction frames as [|f frames IH]; intros st s Hp Hs; cbn [captureAll].
  - exact Hs.
  - rewrite (onaudioprocess_chained cl f st p Hcl Hp).
    rewrite (IH _ (react (SendRealtimeInput (createPcmBlob f)) s)).
    + reflexivity.
    + exact Hp.
    + unfold promise_then. cbn [promises set_promises].
      now rewrite list_lookup_alter_eq, Hs.
Qed.

Lemma captureAll_rejected (cl : Closure) (frames : list (list number))
    (st : State) (p : nat) :
  sessionPromiseRef st = Some p ->
  promises st !! p = Some Rejected ->
  captureAll cl frames st = st.
Proof.
  intros Hp Hr. induction frames as [|f frames IH]; [reflexivity|].
  cbn [captureAll].
  assert (E : onaudioprocess cl f st = st); [|now rewrite E].
  unfold onaudioprocess. destruct (captured_isMuted cl); [reflexivity|].
  rewrite Hp. unfold promise_then.
  replace (alter _ p (promises st)) with (promises st);
    [apply set_promises_same|].
  apply list_eq. intros i. rewrite list_lookup_alter.
  case_decide; [subst i; now rewrite Hr | reflexivity].
Qed.

(** The unmuted capture callback and a settled connection.  Once the
    promise is fulfilled, each frame is encoded and sent at once: after any
    frames the session has received its earlier inputs followed by these
    frames, in capture order, none lost.  Once the promise is rejected, the
    callback leaves no trace: every frame is discarded and the state does
    not change. *)
Theorem capture_after_settlement (st : State) (cl : Closure) (p : nat)
    (frames : list (list number)) :
  captured_isMuted cl = false ->
  sessionPromiseRef st = Some p ->
  (forall s,
     promises st !! p = Some (Fulfilled s) ->
     session_of p (captureAll cl frames st)
     = Some {| realtimeInputs := realtimeInputs s ++ map createPcmBlob frames;
               closeCalls := closeCalls s |}) /\
  (promises st !! p = Some Rejected -> captureAll cl frames st = st).
Proof.
  intros Hcl Hp. split.
  - intros s Hs. unfold session_of.
    rewrite (captureAll_fulfilled cl frames st p s Hcl Hp Hs).
    destruct (sends_inputs frames s) as [E1 E2].
    destruct (fold_left _ (sends frames) s) as [inputs closes].
    cbn in E1, E2. now rewrite E1, E2.
  - now apply captureAll_rejected.
Qed.

Lemma capture_after_settlement_witness :
  session_of 0
    (captureAll Scenario.first_render [Scenario.frame; [NaN]]
       Scenario.connected)
  = Some {| realtimeInputs :=
              realtimeInputs newSession
              ++ map createPcmBlob [Scenario.frame; [NaN]];
            closeCalls := closeCalls newSession |} /\
  captureAll Scenario.first_render [Scenario.frame; [NaN]]
    (connect_rejected 0 Scenario.connecting)
  = connect_rejected 0 Scenario.connecting.
Proof.
  split.
  - apply (capture_after_settlement Scenario.connected Scenario.first_render
             0 [Scenario.frame; [NaN]]); reflexivity.
  - apply (capture_after_settlement (connect_rejected 0 Scenario.connecting)
             Scenario.first_render 0 [Scenario.frame; [NaN]]); reflexivity.
Defined.

(** ** The codec on any frame *)

(** Whatever a frame holds (NaN, infinities and samples outside [-1, 1]
    included), its payload is well formed for the decode block: a non-empty
    frame decodes to a buffer with one sample per sample sent, the stored
    16-bit value over 32768, and so with every sample in [-1, 1). *)
Theorem any_frame_decodes (data : list number) :
  data <> [] ->
  mimeType (createPcmBlob data) = "audio/pcm;rate=16000"%string /\
  decode (Codec.data (createPcmBlob data))
  = Ok {| channelData :=
            map (fun x => (ToInt16 (times32768 x) # 32768)%Q) data |} /\
  Forall (fun x => (-1 <= (ToInt16 (times32768 x) # 32768))%Q /\
                   ((ToInt16 (times32768 x) # 32768) < 1)%Q) data.
Proof.
  intros Hne. split; [reflexivity|]. split.
  - unfold decode. rewrite payload_dataInt16. cbn [bind].
    unfold int16_of_samples, dequantize. rewrite length_map, map_map.
    destruct data; [congruence|reflexivity].
  - apply Forall_forall. intros x _.
    apply (sample_of_int16_range (ToInt16 (times32768 x))).
    apply ToInt16_is_int16.
Qed.

Lemma any_frame_decodes_witness :
  decode (Codec.data
            (createPcmBlob [NaN; Fin 3; Infinity true; Fin (-7 # 5)]))
  = Ok {| channelData :=
            map (fun x => (ToInt16 (times32768 x) # 32768)%Q)
              [NaN; Fin 3; Infinity true; Fin (-7 # 5)] |}.
Proof.
  apply (any_frame_decodes [NaN; Fin 3; Infinity true; Fin (-7 # 5)]).
  discriminate.
Defined.

Lemma truncate_monotone (q1 q2 : Q) :
  (q1 <= q2)%Q -> truncate q1 <= truncate q2.
Proof.
  rewrite !truncate_floor_ceiling. unfold truncate_toward_zero. intros Hle.
  destruct (Qle_bool 0 q1) eqn:E1, (Qle_bool 0 q2) eqn:E2.
  - now apply Qfloor_resp_le.
  - apply Qle_bool_iff in E1.
    assert (0 <= q2)%Q by (eapply Qle_trans; eassumption).
    apply Qle_bool_iff in H. congruence.
  - apply Qle_bool_iff in E2.
    assert (H1 : ~ (0 <= q1)%Q) by (rewrite <- Qle_bool_iff; congruence).
    apply Qnot_le_lt in H1.
    transitivity 0.
    + change 0 with (Qceiling 0). apply Qceiling_resp_le.
      now apply Qlt_le_weak.
    + change 0 with (Qfloor 0). now apply Qfloor_resp_le.
  - now apply Qceiling_resp_le.
Qed.

(** Quantization rounds toward zero and keeps the order: the sample a
    listener gets for an in-range sample [s] lies between zero and [s], and
    a louder sample of the same frame is never sent as a smaller value than
    a softer one. *)
Theorem quantization_toward_zero (s1 s2 : Q) :
  is_int16 (truncate (s1 * 32768)) ->
  is_int16 (truncate (s2 * 32768)) ->
  (s1 <= s2)%Q ->
  ToInt16 (times32768 (Fin s1)) <= ToInt16 (times32768 (Fin s2)) /\
  ((0 <= s1)%Q ->
   (0 <= sample_of_int16 (ToInt16 (times32768 (Fin s1))))%Q /\
   (sample_of_int16 (ToInt16 (times32768 (Fin s1))) <= s1)%Q) /\
  ((s1 <= 0)%Q ->
   (s1 <= sample_of_int16 (ToInt16 (times32768 (Fin s1))))%Q /\
   (sample_of_int16 (ToInt16 (times32768 (Fin s1))) <= 0)%Q).
Proof.
  intros H1 H2 Hle.
  assert (W : forall s, is_int16 (truncate (s * 32768)) ->
                ToInt16 (times32768 (Fin s)) = truncate (s * 32768)).
  { intros s Hs. cbn [times32768]. rewrite ToInt16_wrap.
    unfold wrap_int16, is_int16 in *. Z.div_mod_to_equations; lia. }
  rewrite !W by assumption. split.
  - apply truncate_monotone. now apply Qmult_le_compat_r.
  - clear. destruct s1 as [a d]. unfold truncate, sample_of_int16.
    cbn [Qmult Qnum Qden]. rewrite Pos.mul_1_r.
    pose proof (Z.quot_rem' (a * 32768) (Z.pos d)) as E.
    pose proof (Z.rem_bound_abs (a * 32768) (Z.pos d) ltac:(lia)) as B.
    set (t := (a * 32768) ÷ Z.pos d) in *.
    set (r := Z.rem (a * 32768) (Z.pos d)) in *.
    split; unfold Qle; cbn [Qnum Qden]; intros Ha;
      (assert (Hr : 0 <= r \/ r <= 0) by lia);
      split.
    all: pose proof (Z.rem_sign_nz (a * 32768) (Z.pos d)) as Hsign.
    all: nia.
Qed.

Lemma quantization_toward_zero_witness :
  ToInt16 (times32768 (Fin (-1 # 3))) <= ToInt16 (times32768 (Fin (1 # 2))) /\
  ((0 <= -1 # 3)%Q ->
   (0 <= sample_of_int16 (ToInt16 (times32768 (Fin (-1 # 3)))))%Q /\
   (sample_of_int16 (ToInt16 (times32768 (Fin (-1 # 3)))) <= -1 # 3)%Q) /\
  ((-1 # 3 <= 0)%Q ->
   (-1 # 3 <= sample_of_int16 (ToInt16 (times32768 (Fin (-1 # 3)))))%Q /\
   (sample_of_int16 (ToInt16 (times32768 (Fin (-1 # 3)))) <= 0)%Q).
Proof.
  apply (quantization_toward_zero (-1 # 3) (1 # 2));
    try (split; vm_compute; discriminate).
  vm_compute. discriminate.
Defined.

(** * Properties of the service client *)

Module ServiceFacts.
Import Service.

(** [generateImage] returns the data of the first part of the first
    candidate that carries inline data, whatever comes after it; it throws
    "No image generated." exactly when no part carries any (a response
    without candidates or parts included); and without an API key it throws
    the error of [getAI] whatever the service would have answered. *)
Theorem generateImage_first_image (API_KEY : option string)
    (response : Response) :
  (forall key, getAI API_KEY = Returns key ->
     (forall before part data after,
        parts_of response = before ++ part :: after ->
        Forall (fun p => inlineData p = None) before ->
        inlineData part = Some data ->
        generateImage API_KEY (Returns response) = Returns data) /\
     (generateImage API_KEY (Returns response) = Error "No image generated."
      <-> Forall (fun p => inlineData p = None) (parts_of response))) /\
  (forall message reply,
     getAI API_KEY = Error message ->
     generateImage API_KEY reply = Error message).
Proof.
  split.
  - intros key Hkey. unfold generateImage. rewrite Hkey. split.
    + intros before part data after -> Hbefore Hpart.
      induction Hbefore as [|p before Hp Hb IH]; cbn [app first_image].
      * destruct (inlineData part); [congruence | discriminate].
      * destruct (inlineData p); [discriminate | exact IH].
    + induction (parts_of response) as [|p ps IH]; cbn.
      * split; [constructor | reflexivity].
      * destruct (inlineData p) as [data|] eqn:Ep.
        -- split; [discriminate|]. intros H.
           apply Forall_cons in H as [H _]. congruence.
        -- rewrite IH. split; [now constructor|].
           intros H. now apply Forall_cons in H as [_ H].
  - intros message reply Hkey. unfold generateImage. now rewrite Hkey.
Qed.

Lemma generateImage_first_image_witness :
  generateImage (Some "k"%string)
    (Returns
       {| candidates :=
            Some [{| parts :=
                       Some [{| inlineData := None |};
                             {| inlineData := Some (Some "aW1n"%string) |};
                             {| inlineData := Some None |}] |}] |})
  = Returns (Some "aW1n"%string) /\
  generateImage (Some ""%string) (Returns {| candidates := None |})
  = Error "API Key not found in environment variables.".
Proof.
  split.
  - destruct (generateImage_first_image (Some "k"%string)
                {| candidates :=
                     Some [{| parts :=
                                Some [{| inlineData := None |};
                                      {| inlineData := Some (Some "aW1n"%string) |};
                                      {| inlineData := Some None |}] |}] |})
      as [H _].
    destruct (H "k"%string eq_refl) as [H1 _].
    apply (H1 [{| inlineData := None |}]
              {| inlineData := Some (Some "aW1n"%string) |}
              (Some "aW1n"%string) [{| inlineData := Some None |}]).
    + reflexivity.
    + repeat constructor.
    + reflexivity.
  - destruct (generateImage_first_image (Some ""%string)
                {| candidates := None |}) as [_ H].
    apply H. reflexivity.
Defined.

End ServiceFacts.

(** * Properties of the reader *)

Module ReaderFacts.
Import Reader.

(** ** Bookmarks *)

Lemma insert_perm (b : Bookmark) (l : list Bookmark) :
  Permutation (insert b l) (b :: l).
Proof.
  induction l as [|x l IH]; cbn [insert]; [reflexivity|].
  destruct (Qle_bool (time b) (time x)); [reflexivity|].
  rewrite IH. apply perm_swap.
Qed.

Lemma insert_sorted (b : Bookmark) (l : list Bookmark) :
  StronglySorted by_time l -> StronglySorted by_time (insert b l).
Proof.
  induction 1 as [|x l Hl IH Hx]; cbn [insert].
  - repeat constructor.
  - destruct (Qle_bool (time b) (time x)) eqn:E.
    + apply Qle_bool_iff in E. constructor; [now constructor|].
      constructor; [exact E|].
      eapply Forall_impl; [exact Hx|]. intros y Hy. unfold by_time in *.
      eapply Qle_trans; eassumption.
    + constructor; [exact IH|].
      assert (Hxb : by_time x b).
      { unfold by_time. apply Qlt_le_weak, Qnot_le_lt.
        rewrite <- Qle_bool_iff. congruence. }
      rewrite (insert_perm b l). now constructor.
Qed.

Lemma sort_by_time_perm (l : list Bookmark) : Permutation (sort_by_time l) l.
Proof.
  induction l as [|x l IH]; cbn; [reflexivity|].
  now rewrite insert_perm, IH.
Qed.

Lemma sort_by_time_sorted (l : list Bookmark) :
  StronglySorted by_time (sort_by_time l).
Proof.
  induction l as [|x l IH]; cbn; [constructor | now apply insert_sorted].
Qed.

Lemma updateHistoryItem_lookup (id : string) (updates : Updates) (st : State)
    (i : nat) :
  history (updateHistoryItem id updates st) !! i
  = (fun item => if String.eqb (item_id item) id then spread item updates
                 else item) <$> history st !! i.
Proof. unfold updateHistoryItem. cbn [history set_history]. apply list_lookup_fmap. Qed.

(** Adding a bookmark while a document of the history is playing: every
    entry with the id of that document gets the bookmarks of the document
    with the new one, in the order of their times; the other entries, the
    number of entries and their ids are as before. *)
Theorem addBookmark_keeps_bookmarks_sorted (uuid : string) (st : State)
    (audio : Audio) (docId : string) (currentItem : HistoryItem) :
  audioRef st = Some audio ->
  truthy (currentDocId st) = Some docId ->
  find_item docId (history st) = Some currentItem ->
  let newBookmark :=
    {| bookmark_id := uuid; time := currentTime audio;
       label := ("Bookmark at " ++ formatTime (currentTime audio))%string |} in
  map item_id (history (handleAddBookmark uuid st))
  = map item_id (history st) /\
  (forall i item,
     history st !! i = Some item ->
     exists item',
       history (handleAddBookmark uuid st) !! i = Some item' /\
       (item_id item <> docId -> item' = item) /\
       (item_id item = docId ->
        StronglySorted by_time (bookmarks item') /\
        Permutation (bookmarks item')
          (newBookmark :: bookmarks currentItem) /\
        lastPosition item' = lastPosition item /\
        text item' = text item)).
Proof.
  intros Ha Hd Hf newBookmark. unfold handleAddBookmark.
  rewrite Ha, Hd, Hf. fold newBookmark.
  set (bs := sort_by_time (bookmarks currentItem ++ [newBookmark])).
  split.
  - unfold updateHistoryItem. cbn [history set_history]. rewrite map_map.
    apply map_ext. intros item. now destruct (String.eqb _ _).
  - intros i item Hi. rewrite updateHistoryItem_lookup, Hi. cbn.
    eexists. split; [reflexivity|].
    destruct (String.eqb (item_id item) docId) eqn:E.
    + apply String.eqb_eq in E. split; [congruence|]. intros _. cbn.
      split; [apply sort_by_time_sorted|]. split; [|split; reflexivity].
      subst bs. rewrite sort_by_time_perm.
      now rewrite Permutation_app_comm.
    + apply String.eqb_neq in E. split; [reflexivity | congruence].
Qed.

Lemma addBookmark_keeps_bookmarks_sorted_witness :
  map item_id (history (handleAddBookmark "u1" library))
  = map item_id (history library) /\
  map (fun item => map label (bookmarks item))
    (history (handleAddBookmark "u1" library))
  = [["Bookmark at 1:30"; "Bookmark at 2:00"]; []]%string.
Proof.
  split; [|reflexivity].
  apply (addBookmark_keeps_bookmarks_sorted "u1" library
           {| currentTime := 90%Q; playing := true |} "doc"
           {| item_id := "doc"; fileName := "a.pdf"; uploadDate := 0;
              text := "text"; language := "en";
              bookmarks :=
                [{| bookmark_id := "b0"; time := 120%Q;
                    label := "Bookmark at 2:00" |}];
              lastPosition := 0%Q |}); reflexivity.
Defined.

(** ** Deleting a document *)

Lemma filter_twice {A} (f : A -> bool) (l : list A) :
  List.filter f (List.filter f l) = List.filter f l.
Proof.
  induction l as [|x l IH]; cbn; [reflexivity|].
  destruct (f x) eqn:E; cbn; rewrite ?E, IH; reflexivity.
Qed.

(** Deleting a document removes every entry with its id and nothing else,
    the others keeping their order; the reader is cleared exactly when it
    showed that document; and deleting it again changes nothing. *)
Theorem deleteHistoryItem_removes (id : string) (st : State) :
  (forall item,
     item ∈ history (deleteHistoryItem id st)
     <-> item ∈ history st /\ item_id item <> id) /\
  history (deleteHistoryItem id st) `sublist_of` history st /\
  (currentDocId st = Some id ->
   currentDocId (deleteHistoryItem id st) = None /\
   extractedText (deleteHistoryItem id st) = ""%string /\
   audioUrl (deleteHistoryItem id st) = None) /\
  (currentDocId st <> Some id ->
   currentDocId (deleteHistoryItem id st) = currentDocId st /\
   extractedText (deleteHistoryItem id st) = extractedText st /\
   audioUrl (deleteHistoryItem id st) = audioUrl st) /\
  deleteHistoryItem id (deleteHistoryItem id st) = deleteHistoryItem id st.
Proof.
  assert (Hh : history (deleteHistoryItem id st)
               = List.filter (fun item => negb (String.eqb (item_id item) id))
                   (history st)).
  { unfold deleteHistoryItem. destruct (currentDocId st) as [c|];
      [destruct (String.eqb c id)|]; reflexivity. }
  split; [|split; [|split; [|split]]].
  - intros item. rewrite Hh, !list_elem_of_In, filter_In.
    rewrite negb_true_iff, String.eqb_neq. reflexivity.
  - rewrite Hh. clear Hh.
    induction (history st) as [|x l IH]; cbn; [constructor|].
    destruct (negb _); [apply sublist_skip | apply sublist_cons]; exact IH.
  - intros Hc. unfold deleteHistoryItem. rewrite Hc, String.eqb_refl.
    repeat split.
  - intros Hc. unfold deleteHistoryItem.
    destruct (currentDocId st) as [c|] eqn:Ec; [|cbn; now rewrite Ec].
    destruct (String.eqb c id) eqn:E; [|cbn; now rewrite Ec].
    apply String.eqb_eq in E. congruence.
  - destruct st as [ps et dl au cd h ar]. unfold deleteHistoryItem. cbn.
    destruct cd as [c|]; [destruct (String.eqb c id) eqn:E|]; cbn;
      rewrite ?E, filter_twice; reflexivity.
Qed.

Lemma deleteHistoryItem_removes_witness :
  currentDocId (deleteHistoryItem "doc" library) = None /\
  extractedText (deleteHistoryItem "doc" library) = ""%string /\
  audioUrl (deleteHistoryItem "doc" library) = None /\
  map item_id (history (deleteHistoryItem "doc" library)) = ["old"%string].
Proof.
  destruct (deleteHistoryItem_removes "doc" library) as (_ & _ & H & _).
  destruct (H eq_refl) as (H1 & H2 & H3).
  split; [exact H1|]. split; [exact H2|]. split; [exact H3 | reflexivity].
Defined.

(** ** The playback position *)

Lemma find_item_updated (id : string) (updates : Updates) (st : State)
    (item : HistoryItem) :
  new_id updates = None ->
  find_item id (history st) = Some item ->
  find_item id (history (updateHistoryItem id updates st))
  = Some (spread item updates).
Proof.
  intros Hid. unfold find_item, updateHistoryItem. cbn [history set_history].
  induction (history st) as [|x l IH]; cbn; [discriminate|].
  destruct (String.eqb (item_id x) id) eqn:E.
  - intros [= <-]. cbn. rewrite Hid. cbn. now rewrite E.
  - rewrite E. exact IH.
Qed.

(** Pausing stores the position of the player in the document that is
    playing, and touches no bookmark.  When the audio is loaded again in a
    new player, it seeks to the stored position only if that is more than
    five seconds in; otherwise the player stays where it is. *)
Theorem pause_then_resume (st : State) (audio fresh : Audio) (docId : string)
    (item : HistoryItem) :
  audioRef st = Some audio ->
  truthy (currentDocId st) = Some docId ->
  find_item docId (history st) = Some item ->
  find_item docId (history (handleAudioPause st))
  = Some (spread item (with_lastPosition (currentTime audio))) /\
  map bookmarks (history (handleAudioPause st)) = map bookmarks (history st) /\
  audioRef (handleAudioLoaded (set_audioRef (Some fresh) (handleAudioPause st)))
  = Some (if Qltb 5 (currentTime audio)
          then {| currentTime := currentTime audio; playing := playing fresh |}
          else fresh).
Proof.
  intros Ha Hd Hf.
  assert (Hp : handleAudioPause st
               = updateHistoryItem docId
                   (with_lastPosition (currentTime audio)) st).
  { unfold handleAudioPause. now rewrite Ha, Hd. }
  assert (Hfind : find_item docId (history (handleAudioPause st))
                  = Some (spread item (with_lastPosition (currentTime audio)))).
  { rewrite Hp. now apply find_item_updated. }
  split; [exact Hfind|]. split.
  - rewrite Hp. unfold updateHistoryItem. cbn [history set_history].
    rewrite map_map. apply map_ext. intros x.
    now destruct (String.eqb _ _).
  - unfold handleAudioLoaded. cbn [audioRef set_audioRef currentDocId history].
    replace (currentDocId (handleAudioPause st)) with (currentDocId st)
      by now rewrite Hp.
    rewrite Hd, Hfind. cbn [lastPosition spread with_lastPosition default].
    change (default (lastPosition item)
              (new_lastPosition (with_lastPosition (currentTime audio))))
      with (currentTime audio).
    destruct (Qltb 5 (currentTime audio)) eqn:E5.
    + assert (E0 : Qltb 0 (currentTime audio) = true).
      { unfold Qltb in *. rewrite negb_true_iff in *.
        rewrite <- not_true_iff_false, Qle_bool_iff in *.
        intros H. apply E5. eapply Qle_trans; [exact H|]. discriminate. }
      now rewrite E0.
    + now destruct (Qltb 0 (currentTime audio)).
Qed.

Lemma pause_then_resume_witness :
  audioRef
    (handleAudioLoaded
       (set_audioRef (Some {| currentTime := 0%Q; playing := true |})
          (handleAudioPause library)))
  = Some (if Qltb 5 (currentTime {| currentTime := 90%Q; playing := true |})
          then {| currentTime :=
                    currentTime {| currentTime := 90%Q; playing := true |};
                  playing := playing {| currentTime := 0%Q; playing := true |} |}
          else {| currentTime := 0%Q; playing := true |}).
Proof.
  eapply (pause_then_resume library {| currentTime := 90%Q; playing := true |}
            {| currentTime := 0%Q; playing := true |} "doc"); reflexivity.
Defined.

(** ** Times as text *)






End ReaderFacts.
